(** * iRONS: the reservoir water-balance simulator [syst_sim] and the
      log-exponential release policy.

    The simulator is the notebook function

      def syst_sim(N,I,e,d,S0,Smax,env_min,Qreg)

    It allocates three working lists ([S], [spill], [env]), then walks
    [t = 0 .. N-1], reading the caller's lists [I], [e], [d], [Qreg] by index
    and writing [env[t]], [Qreg[t]], [spill[t]] and [S[t+1]] in place.  The
    list [Qreg] is the caller's own object: the function writes into it and
    returns it.  The embedding therefore keeps an object store and passes
    lists by reference.

    Numbers are exact rationals ([Q]): Python integers are exact, and the
    floating-point runs of the notebooks are read in their real-valued
    idealisation.  The policy formula uses [exp] and [ln] and lives in [R].

    The file has two parts: the definitions, then the lemmas and theorems. *)

From Stdlib Require Import ZArith QArith Qminmax Psatz Reals.
From stdpp Require Import base list.

Local Open Scope Q_scope.

(** * Part I: definitions *)

(** ** Python's comparisons, [max] and [min] on numbers *)

(** [x >= y] *)
Definition Qge_bool (x y : Q) : bool := Qle_bool y x.

(** [x > y] *)
Definition Qgt_bool (x y : Q) : bool := negb (Qle_bool x y).

(** [max(a, b)]: the first argument is kept unless the second is greater. *)
Definition py_max (a b : Q) : Q := if Qgt_bool b a then b else a.

(** [min(a, b)]: the first argument is kept unless the second is smaller. *)
Definition py_min (a b : Q) : Q := if Qgt_bool a b then b else a.

(** ** The object store *)

(** A reference is the index of a list object in the store. *)
Abbreviation loc := nat.

Abbreviation heap := (list (list Q)).

(** [IndexError] is Python's.  [NoObject] marks a reference that names no
    object of the store; a Python caller cannot make one. *)
Inductive exn : Set := IndexError | NoObject.

Inductive outcome (A : Type) : Type :=
| Ok (a : A) (h : heap)
| Raise (x : exn) (h : heap).
Arguments Ok {A} a h.
Arguments Raise {A} x h.

(** A computation reads and writes the store and returns or raises; the
    store written so far survives a raise. *)
Definition M (A : Type) : Type := heap -> outcome A.

#[global] Instance M_ret : MRet M := fun A a h => Ok a h.

#[global] Instance M_bind : MBind M := fun A B k m h =>
  match m h with
  | Ok a h' => k a h'
  | Raise x h' => Raise x h'
  end.

(** [[v] * n]: a new list object; a negative [n] gives the empty list. *)
Definition new_list (v : Q) (n : Z) : M loc :=
  fun h => Ok (length h) (h ++ [replicate (Z.to_nat n) v]).

(** [a[t]] for [t >= 0] *)
Definition getitem (a : loc) (t : nat) : M Q :=
  fun h =>
    match h !! a with
    | None => Raise NoObject h
    | Some l =>
        match l !! t with
        | Some v => Ok v h
        | None => Raise IndexError h
        end
    end.

(** [a[t] = v] for [t >= 0] *)
Definition setitem (a : loc) (t : nat) (v : Q) : M unit :=
  fun h =>
    match h !! a with
    | None => Raise NoObject h
    | Some l =>
        if decide (t < length l)%nat
        then Ok tt (<[a := <[t := v]> l]> h)
        else Raise IndexError h
    end.

Fixpoint for_each (ts : list nat) (body : nat -> M unit) : M unit :=
  match ts with
  | [] => mret tt
  | t :: ts' => body t ;; for_each ts' body
  end.

(** [for t in range(N): body] *)
Definition for_range (N : Z) (body : nat -> M unit) : M unit :=
  for_each (seq 0 (Z.to_nat N)) body.

(** ** The simulator *)

Section Simulator.

Variables (N : Z) (I e d : loc) (S0 Smax env_min : Q) (Qreg : loc).

(** [S[t] + I[t] - e[t]] *)
Definition resource (S : loc) (t : nat) : M Q :=
  s ← getitem S t; i ← getitem I t; ev ← getitem e t;
  mret (s + i - ev).

(** [S[t] + I[t] - e[t] - env[t]] *)
Definition resource_after_env (S env : loc) (t : nat) : M Q :=
  r ← resource S t; en ← getitem env t;
  mret (r - en).

(** [S[t] + I[t] - Qreg[t] - env[t] - e[t]] *)
Definition balance (S env : loc) (t : nat) : M Q :=
  s ← getitem S t; i ← getitem I t; q ← getitem Qreg t;
  en ← getitem env t; ev ← getitem e t;
  mret (s + i - q - en - ev).

(** The body of the loop at step [t]. *)
Definition sim_step (S spill env : loc) (t : nat) : M unit :=
  (* if env_min >= I[t] : env[t] = I[t] *)
  i ← getitem I t;
  (if Qge_bool env_min i
   then i' ← getitem I t; setitem env t i'
   else mret tt) ;;
  (* if env_min >= S[t] + I[t] - e[t]: env[t] = max(0,S[t] + I[t] - e[t]) *)
  r ← resource S t;
  (if Qge_bool env_min r
   then r' ← resource S t; setitem env t (py_max 0 r')
   else mret tt) ;;
  (* if d[t] >= S[t] + I[t] - e[t] - env[t]:
       Qreg[t] = min(Qreg[t],max(0,S[t] + I[t] - e[t] - env[t])) *)
  dm ← getitem d t;
  a ← resource_after_env S env t;
  (if Qge_bool dm a
   then q ← getitem Qreg t; a' ← resource_after_env S env t;
        setitem Qreg t (py_min q (py_max 0 a'))
   else mret tt) ;;
  (* spill[t] = max(0,S[t] + I[t] - Qreg[t] - env[t] - e[t] - Smax) *)
  b ← balance S env t;
  setitem spill t (py_max 0 (b - Smax)) ;;
  (* S[t+1] = S[t] + I[t] - Qreg[t] - env[t]- e[t] - spill[t] *)
  b' ← balance S env t;
  sp ← getitem spill t;
  setitem S (t + 1) (b' - sp).

(** [S = [0]*(N+1)], [spill = [0]*N], [env = [env_min]*N], [S[0] = S0], the
    loop, and [return S,env,spill,Qreg]. *)
Definition syst_sim : M (loc * loc * loc * loc) :=
  S ← new_list 0 (N + 1);
  spill ← new_list 0 N;
  env ← new_list env_min N;
  setitem S 0 S0 ;;
  for_range N (sim_step S spill env) ;;
  mret (S, env, spill, Qreg).

End Simulator.

(** ** The net effect of one iteration

    [step] collects what one pass through the loop body writes, from the
    values it reads at index [t]: [s = S[t]], [i = I[t]], [ev = e[t]],
    [dm = d[t]], [q = Qreg[t]].  Lemma [sim_step_Ok] in Part II proves that
    [sim_step] writes exactly these values when the release list is not also
    the inflow or the evaporation list. *)

Record step_result : Set := mk_step
  { env_t : Q;      (* env[t] *)
    Qreg_t : Q;     (* Qreg[t] after the step *)
    spill_t : Q;    (* spill[t] *)
    S_next : Q }.   (* S[t+1] *)

Definition env_rule (env_min s i ev : Q) : Q :=
  let en := if Qge_bool env_min i then i else env_min in
  if Qge_bool env_min (s + i - ev) then py_max 0 (s + i - ev) else en.

Definition release_rule (s i ev en dm q : Q) : Q :=
  if Qge_bool dm (s + i - ev - en)
  then py_min q (py_max 0 (s + i - ev - en))
  else q.

Definition spill_rule (Smax s i ev en q' : Q) : Q :=
  py_max 0 (s + i - q' - en - ev - Smax).

Definition next_storage (s i ev en q' sp : Q) : Q :=
  s + i - q' - en - ev - sp.

Definition step (env_min Smax s i ev dm q : Q) : step_result :=
  let en := env_rule env_min s i ev in
  let q' := release_rule s i ev en dm q in
  let sp := spill_rule Smax s i ev en q' in
  mk_step en q' sp (next_storage s i ev en q' sp).

(** ** Shapes and frames

    Whether an access raises depends only on the lengths of the lists in the
    store, and no operation of the simulator changes the length of an
    existing list. *)

Definition shape (h : heap) : list nat := length <$> h.

(** [agree_off W h h']: the stores agree on every reference outside [W]. *)
Definition agree_off (W : list loc) (h h' : heap) : Prop :=
  forall l, l ∉ W -> h' !! l = h !! l.

(** [runs sh W bad m]: on a store of shape [sh] the computation [m] keeps
    the shape, writes only inside [W], and raises nothing but an
    [IndexError], and that only when [bad] holds. *)
Definition runs (sh : list nat) (W : list loc) (bad : Prop) {A} (m : M A)
    : Prop :=
  forall h, shape h = sh ->
    match m h with
    | Ok _ h' => shape h' = sh /\ agree_off W h h'
    | Raise x h' => x = IndexError /\ bad /\ shape h' = sh /\ agree_off W h h'
    end.

(** [must sh P m]: when [m] returns on a store of shape [sh], [P] holds. *)
Definition must (sh : list nat) (P : Prop) {A} (m : M A) : Prop :=
  forall h, shape h = sh -> forall a h', m h = Ok a h' -> P.

(** Every input list has at least [n] entries. *)
Definition long_enough (n nI ne nd nQ : nat) : Prop :=
  (n <= nI /\ n <= ne /\ n <= nd /\ n <= nQ)%nat.

(** The horizon is not negative and no input list is shorter than it. *)
Definition enough (N : Z) (iL eL dL qL : list Q) : Prop :=
  (0 <= N)%Z /\
  long_enough (Z.to_nat N) (length iL) (length eL) (length dL) (length qL).

(** The store on which the loop starts: the caller's store with the three
    working lists behind it. *)
Definition alloc3 (h : heap) (sL spL enL : list Q) : heap :=
  ((h ++ [sL]) ++ [spL]) ++ [enL].

(** What the caller can see of the store: its own objects, the release list
    apart. *)
Definition untouched_but (Qreg : loc) (h h' : heap) : Prop :=
  forall l, (l < length h)%nat -> l <> Qreg -> h' !! l = h !! l.

(** ** Trajectories *)

(** The lists [sL], [enL], [spL], [qL'] hold at [t] and [t+1] what one
    iteration computes from the inputs [iL], [eL], [dL], [qL] at [t] and the
    storage [sL[t]]. *)
Definition step_at (Smax env_min : Q) (iL eL dL qL : list Q)
    (sL enL spL qL' : list Q) (t : nat) : Prop :=
  exists s i ev dm q,
    sL !! t = Some s /\ iL !! t = Some i /\ eL !! t = Some ev /\
    dL !! t = Some dm /\ qL !! t = Some q /\
    sL !! (t + 1)%nat = Some (S_next (step env_min Smax s i ev dm q)) /\
    enL !! t = Some (env_t (step env_min Smax s i ev dm q)) /\
    spL !! t = Some (spill_t (step env_min Smax s i ev dm q)) /\
    qL' !! t = Some (Qreg_t (step env_min Smax s i ev dm q)).

(** The state of the store after [k] iterations of the loop of a call made
    on the store [h]. *)
Definition loop_inv (N : Z) (I e d : loc) (S0 Smax env_min : Q) (Qreg : loc)
    (h : heap) (iL eL dL qL : list Q) (k : nat) (hk : heap) : Prop :=
  exists sL spL enL qLk dLk,
    hk !! length h = Some sL /\ hk !! (length h + 1)%nat = Some spL /\
    hk !! (length h + 2)%nat = Some enL /\ hk !! Qreg = Some qLk /\
    hk !! I = Some iL /\ hk !! e = Some eL /\ hk !! d = Some dLk /\
    length sL = (Z.to_nat N + 1)%nat /\ length spL = Z.to_nat N /\
    length enL = Z.to_nat N /\
    length qLk = length qL /\
    sL !! 0%nat = Some S0 /\
    (forall t, (k <= t)%nat -> qLk !! t = qL !! t) /\
    (forall t, (k <= t)%nat -> dLk !! t = dL !! t) /\
    (forall t, (k <= t < Z.to_nat N)%nat -> enL !! t = Some env_min) /\
    (forall t, (t < k)%nat -> step_at Smax env_min iL eL dL qL sL enL spL qLk t).

(** The caller passes four lists of its store; the release list is not also
    the inflow or the evaporation list; the horizon is not negative and every
    list has at least [N] entries. *)
Definition well_formed_call (N : Z) (I e d Qreg : loc) (h : heap)
    (iL eL dL qL : list Q) : Prop :=
  h !! I = Some iL /\ h !! e = Some eL /\ h !! d = Some dL /\
  h !! Qreg = Some qL /\ Qreg <> I /\ Qreg <> e /\ (0 <= N)%Z /\
  long_enough (Z.to_nat N) (length iL) (length eL) (length dL) (length qL).

(** The call returns, and [S], [env], [spill], [Qreg] of the returned tuple
    are the lists [sL], [enL], [spL], [qL']. *)
Definition returns (N : Z) (I e d : loc) (S0 Smax env_min : Q) (Qreg : loc)
    (h : heap) (sL enL spL qL' : list Q) : Prop :=
  exists h' S env spill,
    syst_sim N I e d S0 Smax env_min Qreg h = Ok (S, env, spill, Qreg) h' /\
    h' !! S = Some sL /\ h' !! env = Some enL /\ h' !! spill = Some spL /\
    h' !! Qreg = Some qL'.

(** ** Stores of concrete calls

    Each store holds the caller's four lists [I], [e], [d], [Qreg] at the
    references 0, 1, 2, 3. *)

(** One step, inflow 10, no evaporation, demand and requested release 5. *)
Definition store1 : heap := [[10]; [0]; [5]; [5]].

(** One step with no inflow: from storage 3 the required flow 4 cannot be
    met. *)
Definition store2 : heap := [[0]; [0]; [5]; [5]].

(** One step with inflow 60: a reservoir holding 90 of 100 spills. *)
Definition store3 : heap := [[60]; [0]; [5]; [5]].

(** One step with inflow 1 and neither demand nor release. *)
Definition store10 : heap := [[1]; [0]; [0]; [0]].

(** One step with no inflow and evaporation 1. *)
Definition store_dry : heap := [[0]; [1]; [0]; [0]].

(** One step with nothing flowing in or evaporating, demand 0 and requested
    release 10. *)
Definition store_over : heap := [[0]; [0]; [0]; [10]].

(** The notebook's eight weeks: [I_fore], [e_fore = T_fore*0.1],
    [d_fore = T_fore], and a release schedule that asks for the whole demand
    every week. *)
Definition store_weeks : heap :=
  [[15; 17; 19; 11; 9; 4; 3; 8];
   [13 # 10; 13 # 10; 17 # 10; 18 # 10; 2; 22 # 10; 25 # 10; 26 # 10];
   [13; 13; 17; 18; 20; 22; 25; 26];
   [13; 13; 17; 18; 20; 22; 25; 26]].

(** ** The log-exponential release policy *)

Section PolicyDefinitions.

Local Open Scope R_scope.

(** [x ** a] for a base [x >= 0] and an exponent [a > 0]. *)
Definition power (x a : R) : R :=
  if Req_dec_T x 0 then 0 else Rpower x a.

(** [k = 1 / (s_frac_ref^alpha) * (exp(1 - u_frac_min) - 1)] *)
Definition log_scale (u_frac_min s_frac_ref alpha : R) : R :=
  1 / power s_frac_ref alpha * (exp (1 - u_frac_min) - 1).

(** The branch below the reference storage:
    [u_ref * (u_frac_min + ln(k * s_frac^alpha + 1))] *)
Definition log_branch (u_frac_min s_frac_ref alpha u_ref s_frac : R) : R :=
  u_ref *
  (u_frac_min +
   ln (log_scale u_frac_min s_frac_ref alpha * power s_frac alpha + 1)).

(** The branch from the reference storage on:
    [u_ref * exp(b * (s_frac - s_frac_ref)^2)] *)
Definition exp_branch (s_frac_ref b u_ref s_frac : R) : R :=
  u_ref * exp (b * (s_frac - s_frac_ref) ^ 2).

Inductive policy_error : Set := InvalidParameter.

(** Modelled from the spec: the function [op_logexp_1res_v1] of
    [irons.Software.operating_policy], which the notebook imports and whose
    code is not among the sources; only the formulas of its two branches are
    written out in the notebook.  It fails on [s_frac_ref] outside [(0,1)]
    and on [u_frac_min <= 0]; otherwise the logarithmic branch applies
    below [s_frac_ref] and the exponential branch from [s_frac_ref] on. *)
Definition log_exponential_release
    (u_frac_min s_frac_ref alpha b u_ref s_frac : R) : policy_error + R :=
  if Rlt_dec 0 s_frac_ref then
    if Rlt_dec s_frac_ref 1 then
      if Rlt_dec 0 u_frac_min then
        if Rlt_dec s_frac s_frac_ref
        then inr (log_branch u_frac_min s_frac_ref alpha u_ref s_frac)
        else inr (exp_branch s_frac_ref b u_ref s_frac)
      else inl InvalidParameter
    else inl InvalidParameter
  else inl InvalidParameter.

End PolicyDefinitions.

(** ** The objective function [auto_optim]

    The caller of the simulator in the release-scheduling notebook:

      def auto_optim(vars):
          release1 = vars[0]
          ...
          release8 = vars[7]
          Qreg = [release1,...,release8]
          s,env,spill,Qreg = syst_sim(N,I_fore,e_fore,d_fore,s_0,s_max,env_min,Qreg)
          sdpen = (np.sum((np.maximum(d_fore-Qreg,[0]*N))**2)).astype('int')
          lspen = (np.sum((np.maximum(ms-s,[0]*(N+1))))).astype('int')
          return [sdpen,lspen]

    The globals [N], [I_fore], [e_fore], [d_fore], [s_0], [s_max], [env_min]
    and [ms] are parameters here.  A list of the store stands for a Python
    list or a one-dimensional numpy array alike.  The arrays of the notebook
    hold floats ([d_fore] by its division, [ms - s] by the floats of [s]);
    they are read in their real-valued idealisation, like the numbers of the
    simulator.  numpy's [int] is a 64-bit integer: the cast [astype('int')]
    is modelled with its range, and [deficit_in_range] and [storage_in_range]
    say that no value on the way to a penalty leaves that range, where
    arrays of integers and arrays of floats compute the same values. *)

(** [[x1, ..., xk]]: a new list object holding the given values. *)
Definition list_literal (l : list Q) : M loc :=
  fun h => Ok (length h) (h ++ [l]).

(** The whole of a list or array, as an operand of an elementwise
    operation. *)
Definition getlist (a : loc) : M (list Q) :=
  fun h =>
    match h !! a with
    | Some l => Ok l h
    | None => Raise NoObject h
    end.

(** numpy's broadcasting of two one-dimensional operands: the lengths are
    equal, or one of them is 1; anything else is a [ValueError] ([None]). *)
Definition broadcast (f : Q -> Q -> Q) (a b : list Q) : option (list Q) :=
  if decide (length a = length b) then Some (zip_with f a b)
  else match a, b with
       | [x], _ => Some (map (f x) b)
       | _, [y] => Some (map (fun x => f x y) a)
       | _, _ => None
       end.

(** [a - b] on arrays *)
Definition np_subtract (a b : list Q) : option (list Q) := broadcast Qminus a b.

(** [np.maximum(a, b)] *)
Definition np_maximum (a b : list Q) : option (list Q) := broadcast py_max a b.

(** [a**2], in exact arithmetic: the squares of an array of floats, and of
    an array of 64-bit integers as long as they stay in the range (see
    [deficit_in_range]); beyond it integer squares wrap around. *)
Definition np_square (a : list Q) : list Q := map (fun x => x * x) a.

(** [np.sum(a)], in exact arithmetic, with the same proviso. *)
Definition np_sum (a : list Q) : Q := foldr Qplus 0 a.

(** The least and the greatest value of numpy's [int], a 64-bit integer. *)
Definition int64_min : Z := (- 2 ^ 63)%Z.

Definition int64_max : Z := (2 ^ 63 - 1)%Z.

(** The integer part of a number: the fraction is cut off, towards zero. *)
Definition int_part (x : Q) : Z := Z.quot (Qnum x) (Z.pos (Qden x)).

(** [x.astype('int')], the cast of a float to a 64-bit integer: the integer
    part where that is in the range; beyond the range the conversion gives
    the least integer, [-2**63] (the result of the x86-64 instruction). *)
Definition astype_int (x : Q) : Z :=
  if decide (int64_min <= int_part x <= int64_max)%Z
  then int_part x else int64_min.

(** [x] is in the range of a 64-bit integer. *)
Definition in_int64 (x : Q) : bool :=
  Qle_bool (inject_Z int64_min) x && Qle_bool x (inject_Z int64_max).

(** [(np.sum((np.maximum(d_fore-Qreg,[0]*N))**2)).astype('int')] *)
Definition deficit_penalty (N : Z) (dL qL : list Q) : option Z :=
  x ← np_subtract dL qL;
  y ← np_maximum x (replicate (Z.to_nat N) 0);
  Some (astype_int (np_sum (np_square y))).

(** [(np.sum((np.maximum(ms-s,[0]*(N+1))))).astype('int')] *)
Definition storage_penalty (N : Z) (msL sL : list Q) : option Z :=
  x ← np_subtract msL sL;
  y ← np_maximum x (replicate (Z.to_nat (N + 1)) 0);
  Some (astype_int (np_sum y)).

(** No value computed on the way to [sdpen] leaves the range of a 64-bit
    integer: no difference [d_fore - Qreg], and not the sum of the squares,
    which is at least every square and every partial sum. *)
Definition deficit_in_range (N : Z) (dL qL : list Q) : bool :=
  match np_subtract dL qL with
  | Some x =>
      match np_maximum x (replicate (Z.to_nat N) 0) with
      | Some y => forallb in_int64 x && in_int64 (np_sum (np_square y))
      | None => false
      end
  | None => false
  end.

(** The same on the way to [lspen]: the differences [ms - s] and the sum. *)
Definition storage_in_range (N : Z) (msL sL : list Q) : bool :=
  match np_subtract msL sL with
  | Some x =>
      match np_maximum x (replicate (Z.to_nat (N + 1)) 0) with
      | Some y => forallb in_int64 x && in_int64 (np_sum y)
      | None => false
      end
  | None => false
  end.

(** What [auto_optim] can raise: what the list accesses raise, and numpy's
    [ValueError] for operands that cannot be broadcast together. *)
Inductive np_exn : Set := PyRaise (x : exn) | ValueError.

Inductive outcome2 (A : Type) : Type :=
| Ok2 (a : A) (h : heap)
| Raise2 (x : np_exn) (h : heap).
Arguments Ok2 {A} a h.
Arguments Raise2 {A} x h.

Definition M2 (A : Type) : Type := heap -> outcome2 A.

#[global] Instance M2_ret : MRet M2 := fun A a h => Ok2 a h.

#[global] Instance M2_bind : MBind M2 := fun A B k m h =>
  match m h with
  | Ok2 a h' => k a h'
  | Raise2 x h' => Raise2 x h'
  end.

(** A computation on lists, run as a step of [auto_optim]. *)
Definition lift {A} (m : M A) : M2 A :=
  fun h =>
    match m h with
    | Ok a h' => Ok2 a h'
    | Raise x h' => Raise2 (PyRaise x) h'
    end.

(** A numpy operation, run as a step of [auto_optim]. *)
Definition np {A} (o : option A) : M2 A :=
  fun h =>
    match o with
    | Some a => Ok2 a h
    | None => Raise2 ValueError h
    end.

(** The two penalties and the return of [auto_optim], from the tuple
    [s,env,spill,Qreg] the simulator returned. *)
Definition penalties (N : Z) (d_fore ms : loc) (r : loc * loc * loc * loc)
    : M2 (Z * Z) :=
  let '(s, env, spill, Qreg) := r in
  (* sdpen = (np.sum((np.maximum(d_fore-Qreg,[0]*N))**2)).astype('int') *)
  dL ← lift (getlist d_fore);
  qL ← lift (getlist Qreg);
  sdpen ← np (deficit_penalty N dL qL);
  (* lspen = (np.sum((np.maximum(ms-s,[0]*(N+1))))).astype('int') *)
  msL ← lift (getlist ms);
  sL ← lift (getlist s);
  lspen ← np (storage_penalty N msL sL);
  (* return [sdpen,lspen] *)
  mret (sdpen, lspen).

(** [auto_optim(vars)]; the list of two integers it returns is given as a
    pair. *)
Definition auto_optim (N : Z) (I_fore e_fore d_fore : loc)
    (s_0 s_max env_min : Q) (ms : loc) (vars : loc) : M2 (Z * Z) :=
  release1 ← lift (getitem vars 0);
  release2 ← lift (getitem vars 1);
  release3 ← lift (getitem vars 2);
  release4 ← lift (getitem vars 3);
  release5 ← lift (getitem vars 4);
  release6 ← lift (getitem vars 5);
  release7 ← lift (getitem vars 6);
  release8 ← lift (getitem vars 7);
  Qreg ← lift (list_literal [release1; release2; release3; release4;
                             release5; release6; release7; release8]);
  r ← lift (syst_sim N I_fore e_fore d_fore s_0 s_max env_min Qreg);
  penalties N d_fore ms r.

(** The store a run of [auto_optim] leaves behind, whether it returns or
    raises. *)
Definition store_after {A} (o : outcome2 A) : heap :=
  match o with
  | Ok2 _ h => h
  | Raise2 _ h => h
  end.

(** What the caller of [auto_optim] gets: the pair returned, or the
    exception raised. *)
Definition result_of {A} (o : outcome2 A) : A + np_exn :=
  match o with
  | Ok2 a _ => inl a
  | Raise2 x _ => inr x
  end.

(** The lengths with which numpy can compute the two penalties from a
    release list of eight entries and a storage list of [N + 1]:
    [d_fore - Qreg] needs [d_fore] of length 8 or 1, [np.maximum(_, [0]*N)]
    needs [N] to be 8 or 1, and [ms - s] needs [ms] of length [N + 1] or 1. *)
Definition broadcastable (N : Z) (dL msL : list Q) : Prop :=
  (N = 8 \/ N = 1)%Z /\ (length dL = 8 \/ length dL = 1)%nat /\
  (length msL = Z.to_nat N + 1 \/ length msL = 1)%nat.

(** The notebook's threshold [ms = np.array([30]*(N+1))] and a schedule
    [vars] that asks for the whole demand, behind the eight weeks of
    [store_weeks], at the references 4 and 5. *)
Definition store_optim : heap :=
  store_weeks ++ [replicate 9 30; [13; 13; 17; 18; 20; 22; 25; 26]].

(** Eight weeks in whole numbers: inflow, evaporation, demand, the threshold
    [ms] and a schedule [vars] that asks for the whole demand, at the
    references 0 to 4.  From a full reservoir ([s_0 = 150]) every demand is
    met and the storage ends at 50; from [s_0 = 80] the last release is cut
    from 26 to 6 and the storage ends at 0. *)
Definition store_plan : heap :=
  [[15; 17; 19; 11; 9; 4; 3; 8];
   [1; 1; 2; 2; 2; 2; 3; 3];
   [13; 13; 17; 18; 20; 22; 25; 26];
   replicate 9 30;
   [13; 13; 17; 18; 20; 22; 25; 26]].

(** * Part II: lemmas and theorems *)

(** ** The components of [step] *)

Lemma step_env env_min Smax s i ev dm q :
  env_t (step env_min Smax s i ev dm q) = env_rule env_min s i ev.
Proof. reflexivity. Qed.

Lemma step_Qreg env_min Smax s i ev dm q :
  Qreg_t (step env_min Smax s i ev dm q) =
  release_rule s i ev (env_rule env_min s i ev) dm q.
Proof. reflexivity. Qed.

Lemma step_spill env_min Smax s i ev dm q :
  spill_t (step env_min Smax s i ev dm q) =
  spill_rule Smax s i ev (env_rule env_min s i ev)
    (release_rule s i ev (env_rule env_min s i ev) dm q).
Proof. reflexivity. Qed.

Lemma step_S_next env_min Smax s i ev dm q :
  S_next (step env_min Smax s i ev dm q) =
  next_storage s i ev (env_rule env_min s i ev)
    (release_rule s i ev (env_rule env_min s i ev) dm q)
    (spill_rule Smax s i ev (env_rule env_min s i ev)
       (release_rule s i ev (env_rule env_min s i ev) dm q)).
Proof. reflexivity. Qed.

(** ** Stepping through a computation *)

Lemma bind_Ok {A B} (m : M A) (k : A -> M B) h a h' :
  m h = Ok a h' -> (m ≫= k) h = k a h'.
Proof. intros E. unfold mbind, M_bind. now rewrite E. Qed.

Lemma bind_Raise {A B} (m : M A) (k : A -> M B) h x h' :
  m h = Raise x h' -> (m ≫= k) h = Raise x h'.
Proof. intros E. unfold mbind, M_bind. now rewrite E. Qed.

Lemma bind_Ok_inv {A B} (m : M A) (k : A -> M B) h b h2 :
  (m ≫= k) h = Ok b h2 -> exists a h1, m h = Ok a h1 /\ k a h1 = Ok b h2.
Proof.
  unfold mbind, M_bind. destruct (m h) as [a h1|x h1]; [eauto | discriminate].
Qed.

Lemma getitem_Ok (h : heap) a l t v :
  h !! a = Some l -> l !! t = Some v -> getitem a t h = Ok v h.
Proof. intros Ha Ht. unfold getitem. now rewrite Ha, Ht. Qed.

Lemma setitem_Ok (h : heap) a l t v :
  h !! a = Some l -> (t < length l)%nat ->
  setitem a t v h = Ok tt (<[a := <[t := v]> l]> h).
Proof.
  intros Ha Ht. unfold setitem. rewrite Ha.
  destruct (decide (t < length l)%nat); [reflexivity | contradiction].
Qed.

Lemma getitem_Ok_inv (h : heap) a t v h' :
  getitem a t h = Ok v h' ->
  h' = h /\ exists l, h !! a = Some l /\ l !! t = Some v.
Proof.
  unfold getitem. destruct (h !! a) as [l|]; [|discriminate].
  destruct (l !! t) as [w|] eqn:E; [|discriminate].
  intros [= <- <-]. eauto.
Qed.

(** ** Shapes: which references name a list, and how long it is *)

Lemma shape_lookup (h : heap) a n :
  shape h !! a = Some n <-> exists l, h !! a = Some l /\ length l = n.
Proof.
  unfold shape. rewrite list_lookup_fmap.
  destruct (h !! a) as [l|]; simpl; split.
  - intros [= <-]. eauto.
  - intros (l' & [= <-] & <-). reflexivity.
  - discriminate.
  - intros (l' & [=] & _).
Qed.

Lemma shape_setitem (h : heap) a l t v :
  h !! a = Some l -> shape (<[a := <[t := v]> l]> h) = shape h.
Proof.
  intros Ha. unfold shape. rewrite list_fmap_insert, length_insert.
  apply list_insert_id. rewrite list_lookup_fmap, Ha. reflexivity.
Qed.

Lemma shape_length (h : heap) : length (shape h) = length h.
Proof. unfold shape. apply length_fmap. Qed.

Lemma agree_off_refl W h : agree_off W h h.
Proof. intros l _. reflexivity. Qed.

Lemma agree_off_trans W h1 h2 h3 :
  agree_off W h1 h2 -> agree_off W h2 h3 -> agree_off W h1 h3.
Proof. intros H12 H23 l Hl. rewrite (H23 l Hl). apply H12, Hl. Qed.

Section Runs.

(** [sh]: the shape of the store; [W]: the references that may be written;
    [bad]: what a raise tells about the lengths. *)
Variables (sh : list nat) (W : list loc) (bad : Prop).

Lemma runs_ret {A} (a : A) : runs sh W bad (mret a).
Proof. intros h Hh. simpl. split; [assumption | apply agree_off_refl]. Qed.

Lemma runs_bind {A B} (m : M A) (k : A -> M B) :
  runs sh W bad m -> (forall a, runs sh W bad (k a)) -> runs sh W bad (m ≫= k).
Proof.
  intros Hm Hk h Hh. specialize (Hm h Hh). unfold mbind, M_bind.
  destruct (m h) as [a h1|x h1]; [|exact Hm].
  destruct Hm as [Hs1 Hf1]. specialize (Hk a h1 Hs1).
  destruct (k a h1) as [b h2|x h2].
  - destruct Hk as [Hs2 Hf2]. split; [assumption|].
    eapply agree_off_trans; eassumption.
  - destruct Hk as (Hx & Hb & Hs2 & Hf2).
    split; [assumption|]. split; [assumption|]. split; [assumption|].
    eapply agree_off_trans; eassumption.
Qed.

Lemma runs_if {A} (b : bool) (m1 m2 : M A) :
  runs sh W bad m1 -> runs sh W bad m2 -> runs sh W bad (if b then m1 else m2).
Proof. destruct b; auto. Qed.

Lemma runs_getitem a t n :
  sh !! a = Some n -> (~ (t < n)%nat -> bad) -> runs sh W bad (getitem a t).
Proof.
  intros Ha Hbad h Hh. rewrite <- Hh in Ha.
  apply shape_lookup in Ha as (l & Hl & Hn). unfold getitem. rewrite Hl.
  destruct (l !! t) as [v|] eqn:E.
  - split; [assumption | apply agree_off_refl].
  - apply lookup_ge_None in E.
    split; [reflexivity|]. split; [apply Hbad; lia|].
    split; [assumption | apply agree_off_refl].
Qed.

Lemma runs_setitem a t v n :
  sh !! a = Some n -> a ∈ W -> (~ (t < n)%nat -> bad) -> runs sh W bad (setitem a t v).
Proof.
  intros Ha HW Hbad h Hh. rewrite <- Hh in Ha.
  apply shape_lookup in Ha as (l & Hl & Hn). unfold setitem. rewrite Hl.
  destruct (decide (t < length l)%nat) as [Hlt|Hge].
  - split.
    + rewrite (shape_setitem _ _ _ _ _ Hl). assumption.
    + intros l' Hl'. apply list_lookup_insert_ne. intros ->. contradiction.
  - split; [reflexivity|]. split; [apply Hbad; lia|].
    split; [assumption | apply agree_off_refl].
Qed.

Lemma must_getitem a t n : sh !! a = Some n -> must sh (t < n)%nat (getitem a t).
Proof.
  intros Ha h Hh v h' E. rewrite <- Hh in Ha.
  apply shape_lookup in Ha as (l & Hl & Hn).
  apply getitem_Ok_inv in E as (_ & l' & Hl' & Hv).
  rewrite Hl in Hl'. injection Hl' as <-.
  apply lookup_lt_Some in Hv. lia.
Qed.

Lemma must_bind_l {A B} P (m : M A) (k : A -> M B) :
  must sh P m -> must sh P (m ≫= k).
Proof.
  intros Hm h Hh b h2 E. apply bind_Ok_inv in E as (a & h1 & E1 & _).
  eapply Hm; eassumption.
Qed.

Lemma must_bind_r {A B} P (m : M A) (k : A -> M B) :
  runs sh W bad m -> (forall a, must sh P (k a)) -> must sh P (m ≫= k).
Proof.
  intros Hm Hk h Hh b h2 E. apply bind_Ok_inv in E as (a & h1 & E1 & E2).
  specialize (Hm h Hh). rewrite E1 in Hm. destruct Hm as [Hs1 _].
  exact (Hk a h1 Hs1 b h2 E2).
Qed.

End Runs.

Lemma runs_for_each sh W bad (ts : list nat) (body : nat -> M unit) :
  (forall t, t ∈ ts -> runs sh W bad (body t)) ->
  runs sh W bad (for_each ts body).
Proof.
  induction ts as [|t ts IH]; intros Hb; simpl.
  - apply runs_ret.
  - apply runs_bind.
    + apply Hb. left.
    + intros _. apply IH. intros t' Ht'. apply Hb. now right.
Qed.

Lemma must_for_each sh W bad P (ts : list nat) (body : nat -> M unit) t :
  (forall t', t' ∈ ts -> runs sh W bad (body t')) ->
  t ∈ ts -> must sh P (body t) -> must sh P (for_each ts body).
Proof.
  induction ts as [|t0 ts IH]; intros Hb Ht HP.
  - inversion Ht.
  - simpl. apply elem_of_cons in Ht as [->|Ht].
    + now apply must_bind_l.
    + eapply must_bind_r.
      * apply Hb. left.
      * intros _. apply IH; [|assumption|assumption].
        intros t' Ht'. apply Hb. now right.
Qed.

(** *** The loop body and the loop, by shape *)

Section SimShape.

Variables (I e d : loc) (Smax env_min : Q) (Qreg : loc).
Variables (S spill env : loc).
Variables (sh : list nat) (n nI ne nd nQ : nat).
Hypothesis HI : sh !! I = Some nI.
Hypothesis He : sh !! e = Some ne.
Hypothesis Hd : sh !! d = Some nd.
Hypothesis HQ : sh !! Qreg = Some nQ.
Hypothesis HS : sh !! S = Some (n + 1)%nat.
Hypothesis Hsp : sh !! spill = Some n.
Hypothesis Hen : sh !! env = Some n.

Ltac runs_steps :=
  repeat first
    [ apply runs_ret
    | apply runs_if
    | apply runs_bind; [|intro]
    | eapply runs_getitem; [eassumption | unfold long_enough; lia]
    | eapply runs_setitem;
      [eassumption | rewrite !elem_of_cons; tauto | unfold long_enough; lia] ].

Ltac skip_ok :=
  match goal with
  | |- must ?sh _ _ =>
      apply (must_bind_r sh [S; spill; env; Qreg] (~ long_enough n nI ne nd nQ));
      [runs_steps | intro]
  end.

(** One iteration keeps the shape, writes only [S], [spill], [env] and
    [Qreg], and raises only an [IndexError], only on a list that is too
    short. *)
Lemma sim_step_runs t :
  (t < n)%nat ->
  runs sh [S; spill; env; Qreg] (~ long_enough n nI ne nd nQ)
    (sim_step I e d Smax env_min Qreg S spill env t).
Proof.
  intros Ht. unfold sim_step, balance, resource_after_env, resource.
  runs_steps.
Qed.

Lemma sim_step_must_I t :
  (t < n)%nat ->
  must sh (t < nI)%nat (sim_step I e d Smax env_min Qreg S spill env t).
Proof.
  intros Ht. unfold sim_step. apply must_bind_l.
  eapply must_getitem; eassumption.
Qed.

Lemma sim_step_must_e t :
  (t < n)%nat ->
  must sh (t < ne)%nat (sim_step I e d Smax env_min Qreg S spill env t).
Proof.
  intros Ht. unfold sim_step, resource.
  skip_ok.
  skip_ok.
  apply must_bind_l.
  skip_ok.
  skip_ok.
  apply must_bind_l.
  eapply must_getitem; eassumption.
Qed.

Lemma sim_step_must_d t :
  (t < n)%nat ->
  must sh (t < nd)%nat (sim_step I e d Smax env_min Qreg S spill env t).
Proof.
  intros Ht. unfold sim_step, resource.
  skip_ok.
  skip_ok.
  skip_ok.
  skip_ok.
  apply must_bind_l.
  eapply must_getitem; eassumption.
Qed.

Lemma sim_step_must_Qreg t :
  (t < n)%nat ->
  must sh (t < nQ)%nat (sim_step I e d Smax env_min Qreg S spill env t).
Proof.
  intros Ht. unfold sim_step, resource_after_env, resource, balance.
  do 7 skip_ok.
  apply must_bind_l.
  do 2 skip_ok.
  apply must_bind_l.
  eapply must_getitem; eassumption.
Qed.

End SimShape.

(** *** The whole call, by shape *)

Lemma lookup_app_plus {A} (l1 l2 : list A) k :
  (l1 ++ l2) !! (length l1 + k)%nat = l2 !! k.
Proof.
  rewrite lookup_app_r by lia. f_equal. lia.
Qed.

Lemma shape_app (h : heap) (l : list Q) : shape (h ++ [l]) = shape h ++ [length l].
Proof. unfold shape. now rewrite fmap_app. Qed.

Lemma syst_sim_unfold N I e d S0 Smax env_min Qreg (h : heap) :
  syst_sim N I e d S0 Smax env_min Qreg h =
  (setitem (length h) 0 S0 ;;
   for_range N (sim_step I e d Smax env_min Qreg
                  (length h) (length h + 1)%nat (length h + 2)%nat) ;;
   mret (length h, (length h + 2)%nat, (length h + 1)%nat, Qreg))
    (alloc3 h (replicate (Z.to_nat (N + 1)) 0)
              (replicate (Z.to_nat N) 0)
              (replicate (Z.to_nat N) env_min)).
Proof.
  unfold syst_sim, new_list, alloc3, mbind, M_bind.
  rewrite !length_app. simpl.
  replace (length h + 1 + 1)%nat with (length h + 2)%nat by lia.
  reflexivity.
Qed.

Lemma shape_alloc3 (h : heap) sL spL enL :
  shape (alloc3 h sL spL enL) = shape h ++ [length sL; length spL; length enL].
Proof.
  unfold alloc3. rewrite !shape_app, <- !app_assoc. reflexivity.
Qed.

Lemma alloc3_old (h : heap) sL spL enL a :
  (a < length h)%nat -> alloc3 h sL spL enL !! a = h !! a.
Proof.
  intros Ha. unfold alloc3.
  rewrite !lookup_app_l; rewrite ?length_app; simpl; try lia. reflexivity.
Qed.

Lemma alloc3_S (h : heap) sL spL enL : alloc3 h sL spL enL !! length h = Some sL.
Proof.
  unfold alloc3. rewrite <- !app_assoc. simpl.
  rewrite <- (Nat.add_0_r (length h)). now rewrite lookup_app_plus.
Qed.

Lemma alloc3_spill (h : heap) sL spL enL :
  alloc3 h sL spL enL !! (length h + 1)%nat = Some spL.
Proof.
  unfold alloc3. rewrite <- !app_assoc. simpl. now rewrite lookup_app_plus.
Qed.

Lemma alloc3_env (h : heap) sL spL enL :
  alloc3 h sL spL enL !! (length h + 2)%nat = Some enL.
Proof.
  unfold alloc3. rewrite <- !app_assoc. simpl. now rewrite lookup_app_plus.
Qed.

Section Outcome.

Variables (N : Z) (I e d : loc) (S0 Smax env_min : Q) (Qreg : loc).
Variables (h : heap) (iL eL dL qL : list Q).
Hypothesis HI : h !! I = Some iL.
Hypothesis He : h !! e = Some eL.
Hypothesis Hd : h !! d = Some dL.
Hypothesis HQ : h !! Qreg = Some qL.

Let n := Z.to_nat N.

Let sh := shape h ++ [(n + 1)%nat; n; n].

Lemma sh_old a l : h !! a = Some l -> sh !! a = Some (length l).
Proof.
  intros Ha. unfold sh. rewrite lookup_app_l.
  - apply shape_lookup. eauto.
  - rewrite shape_length. eapply lookup_lt_Some, Ha.
Qed.

Lemma sh_S : sh !! length h = Some (n + 1)%nat.
Proof.
  unfold sh. rewrite <- (shape_length h), <- (Nat.add_0_r (length (shape h))).
  now rewrite lookup_app_plus.
Qed.

Lemma sh_spill : sh !! (length h + 1)%nat = Some n.
Proof. unfold sh. rewrite <- (shape_length h). now rewrite lookup_app_plus. Qed.

Lemma sh_env : sh !! (length h + 2)%nat = Some n.
Proof. unfold sh. rewrite <- (shape_length h). now rewrite lookup_app_plus. Qed.

Lemma agree_off_untouched (h1 h' : heap) :
  untouched_but Qreg h h1 ->
  agree_off [length h; (length h + 1)%nat; (length h + 2)%nat; Qreg] h1 h' ->
  untouched_but Qreg h h'.
Proof.
  intros H1 Hag l Hl HlQ. rewrite Hag; [now apply H1|].
  rewrite !elem_of_cons, elem_of_nil. lia.
Qed.

(** The outcome of a call, for any four lists and any aliasing between
    them. *)
Lemma syst_sim_outcome :
  match syst_sim N I e d S0 Smax env_min Qreg h with
  | Ok r h' =>
      enough N iL eL dL qL /\
      r = (length h, (length h + 2)%nat, (length h + 1)%nat, Qreg) /\
      shape h' = sh /\ untouched_but Qreg h h'
  | Raise x h' =>
      x = IndexError /\ ~ enough N iL eL dL qL /\ untouched_but Qreg h h'
  end.
Proof.
  rewrite syst_sim_unfold.
  set (h1 := alloc3 h _ _ _).
  assert (Hfr1 : untouched_but Qreg h h1).
  { intros l Hl _. now apply alloc3_old. }
  destruct (Z.lt_ge_cases N 0) as [Hneg|Hpos].
  - (* [S] is empty and [S[0] = S0] raises *)
    assert (E : setitem (length h) 0 S0 h1 = Raise IndexError h1).
    { unfold setitem, h1. rewrite alloc3_S.
      replace (Z.to_nat (N + 1)) with 0%nat by lia. reflexivity. }
    rewrite (bind_Raise _ _ _ _ _ E).
    split; [reflexivity|]. split; [|assumption].
    unfold enough. lia.
  - assert (Hn1 : Z.to_nat (N + 1) = (n + 1)%nat) by (unfold n; lia).
    assert (E0 : setitem (length h) 0 S0 h1 =
                 Ok tt (<[length h := <[0%nat := S0]>
                                         (replicate (Z.to_nat (N + 1)) 0)]> h1)).
    { apply setitem_Ok; [apply alloc3_S | rewrite length_replicate; lia]. }
    rewrite (bind_Ok _ _ _ _ _ E0).
    set (h2 := <[length h := _]> h1).
    assert (Hsh2 : shape h2 = sh).
    { unfold h2, h1. rewrite shape_setitem by apply alloc3_S.
      rewrite shape_alloc3, !length_replicate, Hn1. reflexivity. }
    assert (Hfr2 : untouched_but Qreg h h2).
    { intros l Hl HlQ. unfold h2.
      rewrite list_lookup_insert_ne by lia. now apply Hfr1. }
    pose proof (sh_old _ _ HI) as HshI. pose proof (sh_old _ _ He) as Hshe.
    pose proof (sh_old _ _ Hd) as Hshd. pose proof (sh_old _ _ HQ) as HshQ.
    pose proof sh_S as HshS. pose proof sh_spill as Hshsp.
    pose proof sh_env as Hshen.
    set (body := sim_step _ _ _ _ _ _ _ _ _).
    assert (Hbody : forall t, t ∈ seq 0 n ->
              runs sh [length h; (length h + 1)%nat; (length h + 2)%nat; Qreg]
                (~ long_enough n (length iL) (length eL) (length dL) (length qL))
                (body t)).
    { intros t Ht. apply elem_of_seq in Ht.
      eapply sim_step_runs; try eassumption. lia. }
    pose proof (runs_for_each _ _ _ _ _ Hbody h2 Hsh2) as Hloop.
    unfold mbind at 1, M_bind at 1. unfold for_range. fold n.
    destruct (for_each (seq 0 n) body h2) as [[] h3|x h3] eqn:E.
    + destruct Hloop as [Hsh3 Hag]. simpl.
      split; [|split; [reflexivity|split; [assumption|]]].
      * split; [assumption|].
        destruct (Nat.eq_dec n 0%nat) as [Hz|Hnz];
          [unfold long_enough; lia|].
        assert (Hin : (n - 1)%nat ∈ seq 0 n) by (apply elem_of_seq; lia).
        assert (Hlt : (n - 1 < n)%nat) by lia.
        assert (H1 : must sh (n - 1 < length iL)%nat (body (n - 1)%nat))
          by (eapply sim_step_must_I; eassumption).
        assert (H2 : must sh (n - 1 < length eL)%nat (body (n - 1)%nat))
          by (eapply sim_step_must_e; eassumption).
        assert (H3 : must sh (n - 1 < length dL)%nat (body (n - 1)%nat))
          by (eapply sim_step_must_d; eassumption).
        assert (H4 : must sh (n - 1 < length qL)%nat (body (n - 1)%nat))
          by (eapply sim_step_must_Qreg; eassumption).
        apply (must_for_each _ _ _ _ _ _ _ Hbody Hin) in H1, H2, H3, H4.
        specialize (H1 h2 Hsh2 _ _ E). specialize (H2 h2 Hsh2 _ _ E).
        specialize (H3 h2 Hsh2 _ _ E). specialize (H4 h2 Hsh2 _ _ E).
        unfold long_enough. lia.
      * eapply agree_off_untouched; eassumption.
    + destruct Hloop as (Hx & Hbad & Hsh3 & Hag).
      split; [assumption|]. split.
      * unfold enough. tauto.
      * eapply agree_off_untouched; eassumption.
Qed.

End Outcome.

(** ** What one iteration writes *)

Lemma heap_insert_eq (h : heap) a l l0 :
  h !! a = Some l0 -> <[a := l]> h !! a = Some l.
Proof. intros Ha. apply list_lookup_insert_eq. eapply lookup_lt_Some, Ha. Qed.

Lemma cond_write (b : bool) (w : M unit) a t l v0 v (h : heap) :
  h !! a = Some l -> l !! t = Some v0 ->
  (b = true -> w h = Ok tt (<[a := <[t := v]> l]> h)) ->
  (if b then w else mret tt) h =
  Ok tt (<[a := <[t := if b then v else v0]> l]> h).
Proof.
  intros Ha Ht Hw. destruct b.
  - now apply Hw.
  - rewrite (list_insert_id l t v0 Ht), (list_insert_id h a l Ha). reflexivity.
Qed.

(** Finding a list in a store that has been written to, and an entry in a
    list that has been written to. *)
Ltac heap_lookup :=
  first [ eassumption
        | eapply heap_insert_eq; heap_lookup
        | rewrite list_lookup_insert_ne by first [congruence | lia];
          heap_lookup ].

Ltac item_lookup :=
  first [ eassumption
        | apply list_lookup_insert_eq; rewrite ?length_insert;
          first [ assumption | eapply lookup_lt_Some; eassumption ] ].

Section StepValues.

Variables (I e d : loc) (Smax env_min : Q) (Qreg : loc).
Variables (S spill env : loc).

(** The working lists are three different objects, none of them one of the
    caller's lists. *)
Hypothesis fresh_S : S <> spill /\ S <> env /\ S <> I /\ S <> e /\ S <> d /\ S <> Qreg.
Hypothesis fresh_spill :
  spill <> env /\ spill <> I /\ spill <> e /\ spill <> d /\ spill <> Qreg.
Hypothesis fresh_env : env <> I /\ env <> e /\ env <> d /\ env <> Qreg.

(** The release list is not also passed as inflow or evaporation. *)
Hypothesis Qreg_not_I : Qreg <> I.
Hypothesis Qreg_not_e : Qreg <> e.

Lemma resource_Ok (h : heap) t sL iL eL s i ev :
  h !! S = Some sL -> sL !! t = Some s ->
  h !! I = Some iL -> iL !! t = Some i ->
  h !! e = Some eL -> eL !! t = Some ev ->
  resource I e S t h = Ok (s + i - ev) h.
Proof.
  intros HS Hs HI Hi He Hev. unfold resource.
  rewrite (bind_Ok _ _ _ _ _ (getitem_Ok _ _ _ _ _ HS Hs)).
  rewrite (bind_Ok _ _ _ _ _ (getitem_Ok _ _ _ _ _ HI Hi)).
  rewrite (bind_Ok _ _ _ _ _ (getitem_Ok _ _ _ _ _ He Hev)).
  reflexivity.
Qed.

Lemma resource_after_env_Ok (h : heap) t sL iL eL enL s i ev en :
  h !! S = Some sL -> sL !! t = Some s ->
  h !! I = Some iL -> iL !! t = Some i ->
  h !! e = Some eL -> eL !! t = Some ev ->
  h !! env = Some enL -> enL !! t = Some en ->
  resource_after_env I e S env t h = Ok (s + i - ev - en) h.
Proof.
  intros HS Hs HI Hi He Hev Hen Hent. unfold resource_after_env.
  rewrite (bind_Ok _ _ _ _ _ (resource_Ok _ _ _ _ _ _ _ _ HS Hs HI Hi He Hev)).
  rewrite (bind_Ok _ _ _ _ _ (getitem_Ok _ _ _ _ _ Hen Hent)).
  reflexivity.
Qed.

Lemma balance_Ok (h : heap) t sL iL eL enL qL s i ev en q :
  h !! S = Some sL -> sL !! t = Some s ->
  h !! I = Some iL -> iL !! t = Some i ->
  h !! Qreg = Some qL -> qL !! t = Some q ->
  h !! env = Some enL -> enL !! t = Some en ->
  h !! e = Some eL -> eL !! t = Some ev ->
  balance I e Qreg S env t h = Ok (s + i - q - en - ev) h.
Proof.
  intros HS Hs HI Hi HQ Hq Hen Hent He Hev. unfold balance.
  rewrite (bind_Ok _ _ _ _ _ (getitem_Ok _ _ _ _ _ HS Hs)).
  rewrite (bind_Ok _ _ _ _ _ (getitem_Ok _ _ _ _ _ HI Hi)).
  rewrite (bind_Ok _ _ _ _ _ (getitem_Ok _ _ _ _ _ HQ Hq)).
  rewrite (bind_Ok _ _ _ _ _ (getitem_Ok _ _ _ _ _ Hen Hent)).
  rewrite (bind_Ok _ _ _ _ _ (getitem_Ok _ _ _ _ _ He Hev)).
  reflexivity.
Qed.

(** One iteration writes the four components of [step] and nothing else. *)
Lemma sim_step_Ok (h : heap) t sL spL enL iL eL dL qL s i ev dm q :
  h !! S = Some sL -> h !! spill = Some spL -> h !! env = Some enL ->
  h !! I = Some iL -> h !! e = Some eL -> h !! d = Some dL ->
  h !! Qreg = Some qL ->
  sL !! t = Some s -> (t + 1 < length sL)%nat -> (t < length spL)%nat ->
  enL !! t = Some env_min ->
  iL !! t = Some i -> eL !! t = Some ev -> dL !! t = Some dm ->
  qL !! t = Some q ->
  let o := step env_min Smax s i ev dm q in
  sim_step I e d Smax env_min Qreg S spill env t h =
  Ok tt (<[S := <[(t + 1)%nat := S_next o]> sL]>
           (<[spill := <[t := spill_t o]> spL]>
              (<[Qreg := <[t := Qreg_t o]> qL]>
                 (<[env := <[t := env_t o]> enL]> h)))).
Proof.
  intros HS Hsp Hen HI He Hd HQ Hs HlenS Hlensp Hent Hi Hev Hdm Hq o.
  pose proof (step_env env_min Smax s i ev dm q) as Eenv.
  pose proof (step_Qreg env_min Smax s i ev dm q) as EQ.
  pose proof (step_spill env_min Smax s i ev dm q) as Espill.
  pose proof (step_S_next env_min Smax s i ev dm q) as ES.
  fold o in Eenv, EQ, Espill, ES.
  rewrite <- Eenv in EQ, Espill, ES.
  rewrite <- EQ in Espill, ES. rewrite <- Espill in ES.
  unfold spill_rule in Espill. unfold next_storage in ES.
  clearbody o.
  destruct fresh_S as (? & ? & ? & ? & ? & ?).
  destruct fresh_spill as (? & ? & ? & ? & ?).
  destruct fresh_env as (? & ? & ? & ?).
  unfold sim_step.
  (* first rule for env *)
  rewrite (bind_Ok _ _ _ _ _ (getitem_Ok _ _ _ _ _ HI Hi)).
  erewrite bind_Ok;
    [| apply (cond_write _ _ env t enL env_min i h Hen Hent); intros _;
       rewrite (bind_Ok _ _ _ _ _ (getitem_Ok _ _ _ _ _ HI Hi));
       apply setitem_Ok; [assumption | eapply lookup_lt_Some; eassumption]].
  remember (if Qge_bool env_min i then i else env_min) as en1 eqn:E1.
  remember (<[t := en1]> enL) as enL1 eqn:EL1.
  remember (<[env := enL1]> h) as h1 eqn:Eh1.
  assert (HS1 : h1 !! S = Some sL) by (rewrite Eh1; heap_lookup).
  assert (HI1 : h1 !! I = Some iL) by (rewrite Eh1; heap_lookup).
  assert (He1 : h1 !! e = Some eL) by (rewrite Eh1; heap_lookup).
  assert (Hen1 : h1 !! env = Some enL1) by (rewrite Eh1; heap_lookup).
  assert (Hent1 : enL1 !! t = Some en1) by (rewrite EL1; item_lookup).
  (* second rule for env *)
  pose proof (resource_Ok h1 t _ _ _ _ _ _ HS1 Hs HI1 Hi He1 Hev) as Hres1.
  rewrite (bind_Ok _ _ _ _ _ Hres1).
  erewrite bind_Ok;
    [| apply (cond_write _ _ env t enL1 en1 (py_max 0 (s + i - ev)) h1 Hen1 Hent1);
       intros _; rewrite (bind_Ok _ _ _ _ _ Hres1);
       apply setitem_Ok; [assumption | eapply lookup_lt_Some; eassumption]].
  replace (if Qge_bool env_min (s + i - ev) then py_max 0 (s + i - ev) else en1)
    with (env_t o) by (rewrite Eenv, E1; reflexivity).
  remember (<[t := env_t o]> enL1) as enL2 eqn:EL2.
  remember (<[env := enL2]> h1) as h2 eqn:Eh2.
  assert (HS2 : h2 !! S = Some sL) by (rewrite Eh2, Eh1; heap_lookup).
  assert (HI2 : h2 !! I = Some iL) by (rewrite Eh2, Eh1; heap_lookup).
  assert (He2 : h2 !! e = Some eL) by (rewrite Eh2, Eh1; heap_lookup).
  assert (Hd2 : h2 !! d = Some dL) by (rewrite Eh2, Eh1; heap_lookup).
  assert (HQ2 : h2 !! Qreg = Some qL) by (rewrite Eh2, Eh1; heap_lookup).
  assert (Hen2 : h2 !! env = Some enL2) by (rewrite Eh2; heap_lookup).
  assert (Hent2 : enL2 !! t = Some (env_t o)) by (rewrite EL2, EL1; item_lookup).
  (* the release *)
  rewrite (bind_Ok _ _ _ _ _ (getitem_Ok _ _ _ _ _ Hd2 Hdm)).
  pose proof (resource_after_env_Ok h2 t _ _ _ _ _ _ _ _
                HS2 Hs HI2 Hi He2 Hev Hen2 Hent2) as Hrae.
  rewrite (bind_Ok _ _ _ _ _ Hrae).
  erewrite bind_Ok;
    [| apply (cond_write _ _ Qreg t qL q
                (py_min q (py_max 0 (s + i - ev - env_t o))) h2 HQ2 Hq);
       intros _;
       rewrite (bind_Ok _ _ _ _ _ (getitem_Ok _ _ _ _ _ HQ2 Hq));
       rewrite (bind_Ok _ _ _ _ _ Hrae);
       apply setitem_Ok; [assumption | eapply lookup_lt_Some; eassumption]].
  replace (if Qge_bool dm (s + i - ev - env_t o)
           then py_min q (py_max 0 (s + i - ev - env_t o)) else q)
    with (Qreg_t o) by (rewrite EQ; reflexivity).
  remember (<[t := Qreg_t o]> qL) as qL3 eqn:EL3.
  remember (<[Qreg := qL3]> h2) as h3 eqn:Eh3.
  assert (HS3 : h3 !! S = Some sL) by (rewrite Eh3; heap_lookup).
  assert (HI3 : h3 !! I = Some iL) by (rewrite Eh3; heap_lookup).
  assert (He3 : h3 !! e = Some eL) by (rewrite Eh3; heap_lookup).
  assert (HQ3 : h3 !! Qreg = Some qL3) by (rewrite Eh3; heap_lookup).
  assert (Hsp3 : h3 !! spill = Some spL)
    by (rewrite Eh3, Eh2, Eh1; heap_lookup).
  assert (Hen3 : h3 !! env = Some enL2) by (rewrite Eh3; heap_lookup).
  assert (Hq3 : qL3 !! t = Some (Qreg_t o)) by (rewrite EL3; item_lookup).
  (* the spill *)
  rewrite (bind_Ok _ _ _ _ _
             (balance_Ok h3 t _ _ _ _ _ _ _ _ _ _
                HS3 Hs HI3 Hi HQ3 Hq3 Hen3 Hent2 He3 Hev)).
  rewrite <- Espill.
  rewrite (bind_Ok _ _ _ _ _
             (setitem_Ok h3 spill spL t (spill_t o) Hsp3 Hlensp)).
  remember (<[t := spill_t o]> spL) as spL4 eqn:EL4.
  remember (<[spill := spL4]> h3) as h4 eqn:Eh4.
  assert (HS4 : h4 !! S = Some sL) by (rewrite Eh4; heap_lookup).
  assert (HI4 : h4 !! I = Some iL) by (rewrite Eh4; heap_lookup).
  assert (He4 : h4 !! e = Some eL) by (rewrite Eh4; heap_lookup).
  assert (HQ4 : h4 !! Qreg = Some qL3) by (rewrite Eh4; heap_lookup).
  assert (Hsp4 : h4 !! spill = Some spL4) by (rewrite Eh4; heap_lookup).
  assert (Hen4 : h4 !! env = Some enL2) by (rewrite Eh4; heap_lookup).
  assert (Hspt : spL4 !! t = Some (spill_t o)) by (rewrite EL4; item_lookup).
  (* the next storage *)
  rewrite (bind_Ok _ _ _ _ _
             (balance_Ok h4 t _ _ _ _ _ _ _ _ _ _
                HS4 Hs HI4 Hi HQ4 Hq3 Hen4 Hent2 He4 Hev)).
  rewrite (bind_Ok _ _ _ _ _ (getitem_Ok _ _ _ _ _ Hsp4 Hspt)).
  rewrite <- ES.
  rewrite (setitem_Ok h4 S sL (t + 1) _ HS4 HlenS).
  rewrite Eh4, Eh3, Eh2, Eh1, EL2, EL1, EL3, EL4.
  rewrite !list_insert_insert_eq.
  reflexivity.
Qed.

End StepValues.

(** ** The loop *)

Lemma for_each_seq_inv (Inv : nat -> heap -> Prop) (body : nat -> M unit) n :
  (forall k hk, (k < n)%nat -> Inv k hk ->
     exists h', body k hk = Ok tt h' /\ Inv (k + 1)%nat h') ->
  forall h0, Inv 0%nat h0 ->
  exists h', for_each (seq 0 n) body h0 = Ok tt h' /\ Inv n h'.
Proof.
  intros Hstep.
  assert (G : forall m j hj, (j + m = n)%nat -> Inv j hj ->
            exists h', for_each (seq j m) body hj = Ok tt h' /\ Inv n h').
  { induction m as [|m IH]; intros j hj Hj Hinv.
    - simpl. exists hj. split; [reflexivity|].
      replace n with j by lia. assumption.
    - simpl. destruct (Hstep j hj ltac:(lia) Hinv) as (h1 & E1 & Hinv1).
      rewrite (bind_Ok _ _ _ _ _ E1).
      replace (j + 1)%nat with (Datatypes.S j) in Hinv1 by lia.
      apply IH; [lia | assumption]. }
  intros h0 H0. apply (G n 0%nat h0); [lia | assumption].
Qed.

Section Trajectory.

Variables (N : Z) (I e d : loc) (S0 Smax env_min : Q) (Qreg : loc).
Variables (h : heap) (iL eL dL qL : list Q).
Hypothesis HI : h !! I = Some iL.
Hypothesis He : h !! e = Some eL.
Hypothesis Hd : h !! d = Some dL.
Hypothesis HQ : h !! Qreg = Some qL.
Hypothesis Qreg_not_I : Qreg <> I.
Hypothesis Qreg_not_e : Qreg <> e.

Let n := Z.to_nat N.

Hypothesis Hlong :
  long_enough n (length iL) (length eL) (length dL) (length qL).

(** One iteration takes the invariant from [k] to [k + 1]. *)
Lemma loop_inv_step k hk :
  (k < n)%nat -> loop_inv N I e d S0 Smax env_min Qreg h iL eL dL qL k hk ->
  exists h',
    sim_step I e d Smax env_min Qreg
      (length h) (length h + 1)%nat (length h + 2)%nat k hk = Ok tt h' /\
    loop_inv N I e d S0 Smax env_min Qreg h iL eL dL qL (k + 1)%nat h'.
Proof.
  intros Hk (sL & spL & enL & qLk & dLk & HS & Hsp & Hen & HQk & HIk & Hek &
             Hdk & HlS & Hlsp & Hlen & HlQ & HS0 & Hq_rest & Hd_rest &
             Hen_rest & Hdone).
  destruct Hlong as (HnI & Hne & Hnd & HnQ).
  pose proof (lookup_lt_Some _ _ _ HI) as HIlt.
  pose proof (lookup_lt_Some _ _ _ He) as Helt.
  pose proof (lookup_lt_Some _ _ _ Hd) as Hdlt.
  pose proof (lookup_lt_Some _ _ _ HQ) as HQlt.
  destruct (lookup_lt_is_Some_2 sL k ltac:(lia)) as [s Hs].
  destruct (lookup_lt_is_Some_2 iL k ltac:(lia)) as [i Hi].
  destruct (lookup_lt_is_Some_2 eL k ltac:(lia)) as [ev Hev].
  destruct (lookup_lt_is_Some_2 dL k ltac:(lia)) as [dm Hdm].
  destruct (lookup_lt_is_Some_2 qL k ltac:(lia)) as [q Hq].
  assert (Hdmk : dLk !! k = Some dm) by (rewrite Hd_rest by lia; assumption).
  assert (Hqk : qLk !! k = Some q) by (rewrite Hq_rest by lia; assumption).
  assert (Henk : enL !! k = Some env_min) by (apply Hen_rest; lia).
  eexists. split.
  - apply (sim_step_Ok I e d Smax env_min Qreg
             (length h) (length h + 1)%nat (length h + 2)%nat
             ltac:(lia) ltac:(lia) ltac:(lia) Qreg_not_I Qreg_not_e
             hk k sL spL enL iL eL dLk qLk s i ev dm q);
      try assumption; lia.
  - set (o := step env_min Smax s i ev dm q).
    exists (<[(k + 1)%nat := S_next o]> sL), (<[k := spill_t o]> spL),
      (<[k := env_t o]> enL), (<[k := Qreg_t o]> qLk),
      (if decide (d = Qreg) then <[k := Qreg_t o]> qLk else dLk).
    assert (Hd_eq : d = Qreg -> dL = qL /\ dLk = qLk).
    { intros ->. split; congruence. }
    repeat match goal with |- _ /\ _ => split end.
    + heap_lookup.
    + rewrite list_lookup_insert_ne by lia. heap_lookup.
    + rewrite !list_lookup_insert_ne by lia. heap_lookup.
    + rewrite !list_lookup_insert_ne by lia. heap_lookup.
    + rewrite !list_lookup_insert_ne by lia. assumption.
    + rewrite !list_lookup_insert_ne by lia. assumption.
    + destruct (decide (d = Qreg)) as [->|Hne'].
      * rewrite !list_lookup_insert_ne by lia. heap_lookup.
      * rewrite !list_lookup_insert_ne by lia. assumption.
    + rewrite length_insert. assumption.
    + rewrite length_insert. assumption.
    + rewrite length_insert. assumption.
    + rewrite length_insert. assumption.
    + rewrite list_lookup_insert_ne by lia. assumption.
    + intros t Ht. rewrite list_lookup_insert_ne by lia. apply Hq_rest. lia.
    + intros t Ht. destruct (decide (d = Qreg)) as [Hdq|Hne'].
      * destruct (Hd_eq Hdq) as [-> _].
        rewrite list_lookup_insert_ne by lia. apply Hq_rest. lia.
      * apply Hd_rest. lia.
    + intros t Ht. rewrite list_lookup_insert_ne by lia. apply Hen_rest. lia.
    + intros t Ht. destruct (decide (t = k)) as [->|Htk].
      * exists s, i, ev, dm, q. fold o.
        repeat match goal with |- _ /\ _ => split end; try assumption.
        -- rewrite list_lookup_insert_ne by lia. assumption.
        -- apply list_lookup_insert_eq. lia.
        -- apply list_lookup_insert_eq. lia.
        -- apply list_lookup_insert_eq. lia.
        -- apply list_lookup_insert_eq. lia.
      * destruct (Hdone t ltac:(lia))
          as (s' & i' & ev' & dm' & q' & ? & ? & ? & ? & ? & ? & ? & ? & ?).
        exists s', i', ev', dm', q'.
        repeat match goal with |- _ /\ _ => split end; try assumption;
          rewrite list_lookup_insert_ne by lia; assumption.
Qed.

Hypothesis Hpos : (0 <= N)%Z.

(** A call with a horizon [N >= 0] on lists of at least [N] entries
    returns, and the lists it returns are related step by step by [step]. *)
Lemma syst_sim_trajectory :
  exists h' sL enL spL qL',
    syst_sim N I e d S0 Smax env_min Qreg h =
      Ok (length h, (length h + 2)%nat, (length h + 1)%nat, Qreg) h' /\
    h' !! length h = Some sL /\ h' !! (length h + 2)%nat = Some enL /\
    h' !! (length h + 1)%nat = Some spL /\ h' !! Qreg = Some qL' /\
    length sL = (n + 1)%nat /\ length enL = n /\ length spL = n /\
    length qL' = length qL /\
    sL !! 0%nat = Some S0 /\
    (forall t, (n <= t)%nat -> qL' !! t = qL !! t) /\
    (forall t, (t < n)%nat -> step_at Smax env_min iL eL dL qL sL enL spL qL' t).
Proof.
  pose proof (lookup_lt_Some _ _ _ HI) as HIlt.
  pose proof (lookup_lt_Some _ _ _ He) as Helt.
  pose proof (lookup_lt_Some _ _ _ Hd) as Hdlt.
  pose proof (lookup_lt_Some _ _ _ HQ) as HQlt.
  assert (Hn1 : Z.to_nat (N + 1) = (n + 1)%nat) by (unfold n; lia).
  rewrite syst_sim_unfold. fold n. rewrite Hn1.
  set (zs := replicate (n + 1) 0). set (sp0 := replicate n 0).
  set (en0 := replicate n env_min).
  set (h1 := alloc3 h zs sp0 en0).
  assert (E0 : setitem (length h) 0 S0 h1 =
               Ok tt (<[length h := <[0%nat := S0]> zs]> h1)).
  { apply setitem_Ok; [apply alloc3_S |].
    unfold zs. rewrite length_replicate. lia. }
  rewrite (bind_Ok _ _ _ _ _ E0).
  set (h2 := <[length h := _]> h1).
  assert (Hinv0 : loop_inv N I e d S0 Smax env_min Qreg h iL eL dL qL 0 h2).
  { exists (<[0%nat := S0]> zs), sp0, en0, qL, dL. unfold h2, h1.
    repeat match goal with |- _ /\ _ => split end.
    - eapply heap_insert_eq, alloc3_S.
    - rewrite list_lookup_insert_ne by lia. apply alloc3_spill.
    - rewrite list_lookup_insert_ne by lia. apply alloc3_env.
    - rewrite list_lookup_insert_ne by lia. now rewrite alloc3_old.
    - rewrite list_lookup_insert_ne by lia. now rewrite alloc3_old.
    - rewrite list_lookup_insert_ne by lia. now rewrite alloc3_old.
    - rewrite list_lookup_insert_ne by lia. now rewrite alloc3_old.
    - unfold zs. now rewrite length_insert, length_replicate.
    - unfold sp0. apply length_replicate.
    - unfold en0. apply length_replicate.
    - reflexivity.
    - apply list_lookup_insert_eq. unfold zs. rewrite length_replicate. lia.
    - reflexivity.
    - reflexivity.
    - intros t Ht. unfold en0. apply lookup_replicate_2. lia.
    - intros t Ht. lia. }
  destruct (for_each_seq_inv (loop_inv N I e d S0 Smax env_min Qreg h iL eL dL qL) _ n loop_inv_step h2 Hinv0)
    as (h3 & E3 & sL & spL & enL & qL' & dL' & HS3 & Hsp3 & Hen3 & HQ3 & _ &
        _ & _ & HlS & Hlsp & Hlen & HlQ & HS0 & Hq_rest & _ & _ & Hdone).
  exists h3, sL, enL, spL, qL'.
  unfold for_range. fold n. rewrite (bind_Ok _ _ _ _ _ E3).
  repeat match goal with |- _ /\ _ => split end; try assumption.
  reflexivity.
Qed.

End Trajectory.

(** ** Calls and what they return *)

(** Every well-formed call returns, and its lists are linked by [step]. *)
Lemma returns_steps N I e d S0 Smax env_min Qreg h iL eL dL qL :
  well_formed_call N I e d Qreg h iL eL dL qL ->
  exists sL enL spL qL',
    returns N I e d S0 Smax env_min Qreg h sL enL spL qL' /\
    length sL = (Z.to_nat N + 1)%nat /\ sL !! 0%nat = Some S0 /\
    forall t, (t < Z.to_nat N)%nat ->
      step_at Smax env_min iL eL dL qL sL enL spL qL' t.
Proof.
  intros (HI & He & Hd & HQ & HQI & HQe & Hpos & Hlong).
  destruct (syst_sim_trajectory N I e d S0 Smax env_min Qreg h iL eL dL qL
              HI He Hd HQ HQI HQe Hlong Hpos)
    as (h' & sL & enL & spL & qL' & E & HS & Hen & Hsp & HQ' & HlS & _ & _ &
        _ & HS0 & _ & Hsteps).
  exists sL, enL, spL, qL'. split; [|split; [assumption|split; assumption]].
  exists h', (length h), (length h + 2)%nat, (length h + 1)%nat. auto.
Qed.

(** ** Order facts about the rules *)

Lemma Qge_bool_true x y : Qge_bool x y = true -> y <= x.
Proof. unfold Qge_bool. apply Qle_bool_iff. Qed.

Lemma Qge_bool_false x y : Qge_bool x y = false -> x < y.
Proof.
  unfold Qge_bool. intros E. apply Qnot_le_lt. intros Hle.
  apply Qle_bool_iff in Hle. congruence.
Qed.

Lemma py_max_cases a b :
  (a < b /\ py_max a b = b) \/ (b <= a /\ py_max a b = a).
Proof.
  unfold py_max, Qgt_bool. destruct (Qle_bool b a) eqn:E; simpl.
  - right. split; [now apply Qle_bool_iff | reflexivity].
  - left. split; [|reflexivity]. apply Qnot_le_lt. intros Hle.
    apply Qle_bool_iff in Hle. congruence.
Qed.

Lemma py_min_cases a b :
  (b < a /\ py_min a b = b) \/ (a <= b /\ py_min a b = a).
Proof.
  unfold py_min, Qgt_bool. destruct (Qle_bool a b) eqn:E; simpl.
  - right. split; [now apply Qle_bool_iff | reflexivity].
  - left. split; [|reflexivity]. apply Qnot_le_lt. intros Hle.
    apply Qle_bool_iff in Hle. congruence.
Qed.

(** Case analysis on every comparison, [max] and [min] of a goal about the
    rules, then linear arithmetic. *)
Ltac rule_cases :=
  unfold env_rule, release_rule, spill_rule, next_storage in *;
  repeat match goal with
    | |- context [Qge_bool ?x ?y] =>
        let E := fresh "E" in
        destruct (Qge_bool x y) eqn:E;
        [apply Qge_bool_true in E | apply Qge_bool_false in E]
    | |- context [py_max ?a ?b] =>
        let H := fresh "H" in
        destruct (py_max_cases a b) as [[H ->]|[H ->]]
    | |- context [py_min ?a ?b] =>
        let H := fresh "H" in
        destruct (py_min_cases a b) as [[H ->]|[H ->]]
    end.

Lemma env_rule_nonneg env_min s i ev :
  0 <= i -> 0 <= env_min -> 0 <= env_rule env_min s i ev <= env_min.
Proof. intros Hi Hm. rule_cases; lra. Qed.

Lemma env_rule_full env_min s i ev :
  env_min < i -> env_min < s + i - ev -> env_rule env_min s i ev = env_min.
Proof.
  intros Hi Hr. unfold env_rule.
  destruct (Qge_bool env_min (s + i - ev)) eqn:E1;
    [apply Qge_bool_true in E1; lra|].
  destruct (Qge_bool env_min i) eqn:E2;
    [apply Qge_bool_true in E2; lra|].
  reflexivity.
Qed.

Lemma env_rule_within env_min s i ev :
  0 <= s + i - ev -> env_rule env_min s i ev <= s + i - ev.
Proof. intros Hr. rule_cases; lra. Qed.

Lemma release_rule_le s i ev en dm q : release_rule s i ev en dm q <= q.
Proof. rule_cases; lra. Qed.

Lemma release_rule_within s i ev en dm q :
  0 <= s + i - ev - en -> q <= dm ->
  release_rule s i ev en dm q <= s + i - ev - en.
Proof. intros Hr Hq. rule_cases; lra. Qed.

Lemma spill_rule_nonneg Smax s i ev en q' : 0 <= spill_rule Smax s i ev en q'.
Proof. rule_cases; lra. Qed.

Lemma spill_rule_pos Smax s i ev en q' :
  0 < spill_rule Smax s i ev en q' -> Smax < s + i - q' - en - ev.
Proof.
  unfold spill_rule.
  destruct (py_max_cases 0 (s + i - q' - en - ev - Smax)) as [[H ->]|[H ->]];
    lra.
Qed.

Lemma next_storage_le_Smax Smax s i ev en q' :
  next_storage s i ev en q' (spill_rule Smax s i ev en q') <= Smax.
Proof. rule_cases; lra. Qed.

Lemma next_storage_nonneg Smax s i ev en q' :
  0 <= Smax -> q' <= s + i - ev - en ->
  0 <= next_storage s i ev en q' (spill_rule Smax s i ev en q').
Proof. intros HS Hq. rule_cases; lra. Qed.

(** * Runs

    Three one-step runs on the stores of Part I: a normal step, a deficit and
    a spill.  The store returned holds [S], [spill], [env] at the references
    4, 5, 6. *)

Example scenario_normal :
  syst_sim 1 0 1 2 50 100 2 3 store1 =
    Ok (4, 6, 5, 3)%nat [[10]; [0]; [5]; [5]; [50; 53]; [0]; [2]].
Proof. vm_compute. reflexivity. Qed.

Example scenario_deficit :
  syst_sim 1 0 1 2 3 100 4 3 store2 =
    Ok (4, 6, 5, 3)%nat [[0]; [0]; [5]; [0]; [3; 0]; [0]; [3]].
Proof. vm_compute. reflexivity. Qed.

Example scenario_spill :
  syst_sim 1 0 1 2 90 100 2 3 store3 =
    Ok (4, 6, 5, 3)%nat [[60]; [0]; [5]; [5]; [90; 100]; [43]; [2]].
Proof. vm_compute. reflexivity. Qed.

(** The notebook's eight weeks with [s_0 = 80], [s_max = 150],
    [env_min = 2]: covering the whole demand for seven weeks draws the
    reservoir down so far that the last release is cut from 26 to 6.6.  The
    fractions are shown in lowest terms. *)
Example scenario_weeks :
  match syst_sim 8 0 1 2 80 150 2 3 store_weeks with
  | Ok r h' => Some (r, map (map Qred) h')
  | Raise _ _ => None
  end =
  Some ((4, 6, 5, 3)%nat,
        [[15; 17; 19; 11; 9; 4; 3; 8];
         [13 # 10; 13 # 10; 17 # 10; 9 # 5; 2; 11 # 5; 5 # 2; 13 # 5];
         [13; 13; 17; 18; 20; 22; 25; 26];
         [13; 13; 17; 18; 20; 22; 25; 33 # 5];
         [80; 787 # 10; 397 # 5; 777 # 10; 669 # 10; 519 # 10; 297 # 10;
          16 # 5; 0];
         [0; 0; 0; 0; 0; 0; 0; 0];
         [2; 2; 2; 2; 2; 2; 2; 2]]).
Proof. vm_compute. reflexivity. Qed.

(** * The simulator: properties of every step *)

Lemma store1_well_formed : well_formed_call 1 0 1 2 3 store1 [10] [0] [5] [5].
Proof.
  unfold well_formed_call, long_enough, store1. simpl.
  repeat split; try reflexivity; try lia.
Defined.

(** C6, mass balance.  On every well-formed call the simulator returns, and
    at every step [t < N] the returned lists satisfy
    [S[t+1] = S[t] + I[t] - Qreg[t] - env[t] - e[t] - spill[t]], with [Qreg]
    the returned (clamped) release; in exact arithmetic the equation holds
    on the nose. *)
Theorem mass_balance N I e d S0 Smax env_min Qreg h iL eL dL qL :
  well_formed_call N I e d Qreg h iL eL dL qL ->
  exists sL enL spL qL',
    returns N I e d S0 Smax env_min Qreg h sL enL spL qL' /\
    forall t, (t < Z.to_nat N)%nat ->
      exists s i ev q' en sp s',
        sL !! t = Some s /\ iL !! t = Some i /\ eL !! t = Some ev /\
        qL' !! t = Some q' /\ enL !! t = Some en /\ spL !! t = Some sp /\
        sL !! (t + 1)%nat = Some s' /\
        s' = s + i - q' - en - ev - sp.
Proof.
  intros Hwf.
  destruct (returns_steps N I e d S0 Smax env_min Qreg h iL eL dL qL Hwf)
    as (sL & enL & spL & qL' & Hret & _ & _ & Hsteps).
  exists sL, enL, spL, qL'. split; [assumption|].
  intros t Ht.
  destruct (Hsteps t Ht)
    as (s & i & ev & dm & q & Hs & Hi & Hev & Hdm & Hq & Hs' & Hen & Hsp & Hq').
  set (o := step env_min Smax s i ev dm q) in *.
  exists s, i, ev, (Qreg_t o), (env_t o), (spill_t o), (S_next o).
  repeat match goal with |- _ /\ _ => split end; try assumption.
  reflexivity.
Qed.

Lemma mass_balance_witness :
  well_formed_call 1 0 1 2 3 store1 [10] [0] [5] [5] /\
  exists sL enL spL qL',
    returns 1 0 1 2 50 100 2 3 store1 sL enL spL qL' /\
    forall t, (t < Z.to_nat 1)%nat ->
      exists s i ev q' en sp s',
        sL !! t = Some s /\ [10] !! t = Some i /\ [0] !! t = Some ev /\
        qL' !! t = Some q' /\ enL !! t = Some en /\ spL !! t = Some sp /\
        sL !! (t + 1)%nat = Some s' /\
        s' = s + i - q' - en - ev - sp.
Proof.
  split; [exact store1_well_formed|].
  exact (mass_balance 1 0 1 2 50 100 2 3 store1 [10] [0] [5] [5]
           store1_well_formed).
Defined.

(** C7, release domination.  At every step the release the simulator
    returns is at most the release that was requested, that is the entry of
    [Qreg] the caller passed in: [Qreg_out[t] <= Qreg_in[t]]. *)
Theorem release_domination N I e d S0 Smax env_min Qreg h iL eL dL qL :
  well_formed_call N I e d Qreg h iL eL dL qL ->
  exists sL enL spL qL',
    returns N I e d S0 Smax env_min Qreg h sL enL spL qL' /\
    forall t, (t < Z.to_nat N)%nat ->
      exists u_req q', qL !! t = Some u_req /\ qL' !! t = Some q' /\ q' <= u_req.
Proof.
  intros Hwf.
  destruct (returns_steps N I e d S0 Smax env_min Qreg h iL eL dL qL Hwf)
    as (sL & enL & spL & qL' & Hret & _ & _ & Hsteps).
  exists sL, enL, spL, qL'. split; [assumption|].
  intros t Ht.
  destruct (Hsteps t Ht)
    as (s & i & ev & dm & q & Hs & Hi & Hev & Hdm & Hq & Hs' & Hen & Hsp & Hq').
  exists q, (Qreg_t (step env_min Smax s i ev dm q)).
  split; [assumption|]. split; [assumption|].
  rewrite step_Qreg. apply release_rule_le.
Qed.

Lemma release_domination_witness :
  well_formed_call 1 0 1 2 3 store1 [10] [0] [5] [5] /\
  exists sL enL spL qL',
    returns 1 0 1 2 50 100 2 3 store1 sL enL spL qL' /\
    forall t, (t < Z.to_nat 1)%nat ->
      exists u_req q',
        [5] !! t = Some u_req /\ qL' !! t = Some q' /\ q' <= u_req.
Proof.
  split; [exact store1_well_formed|].
  exact (release_domination 1 0 1 2 50 100 2 3 store1 [10] [0] [5] [5]
           store1_well_formed).
Defined.

(** C8, spill only at capacity.  At every step [spill[t] >= 0], and
    [spill[t] > 0] only if the storage before spilling,
    [S[t] + I[t] - Qreg[t] - env[t] - e[t]], is above [Smax]. *)
Theorem spill_only_at_capacity N I e d S0 Smax env_min Qreg h iL eL dL qL :
  well_formed_call N I e d Qreg h iL eL dL qL ->
  exists sL enL spL qL',
    returns N I e d S0 Smax env_min Qreg h sL enL spL qL' /\
    forall t, (t < Z.to_nat N)%nat ->
      exists s i ev q' en sp,
        sL !! t = Some s /\ iL !! t = Some i /\ eL !! t = Some ev /\
        qL' !! t = Some q' /\ enL !! t = Some en /\ spL !! t = Some sp /\
        0 <= sp /\ (0 < sp -> Smax < s + i - q' - en - ev).
Proof.
  intros Hwf.
  destruct (returns_steps N I e d S0 Smax env_min Qreg h iL eL dL qL Hwf)
    as (sL & enL & spL & qL' & Hret & _ & _ & Hsteps).
  exists sL, enL, spL, qL'. split; [assumption|].
  intros t Ht.
  destruct (Hsteps t Ht)
    as (s & i & ev & dm & q & Hs & Hi & Hev & Hdm & Hq & Hs' & Hen & Hsp & Hq').
  set (o := step env_min Smax s i ev dm q) in *.
  exists s, i, ev, (Qreg_t o), (env_t o), (spill_t o).
  repeat match goal with |- _ /\ _ => split end; try assumption.
  - unfold o. rewrite step_spill. apply spill_rule_nonneg.
  - unfold o. rewrite step_spill, step_Qreg, step_env. apply spill_rule_pos.
Qed.

Lemma store3_well_formed : well_formed_call 1 0 1 2 3 store3 [60] [0] [5] [5].
Proof.
  unfold well_formed_call, long_enough, store3. simpl.
  repeat split; try reflexivity; try lia.
Defined.

Lemma spill_only_at_capacity_witness :
  well_formed_call 1 0 1 2 3 store3 [60] [0] [5] [5] /\
  exists sL enL spL qL',
    returns 1 0 1 2 90 100 2 3 store3 sL enL spL qL' /\
    forall t, (t < Z.to_nat 1)%nat ->
      exists s i ev q' en sp,
        sL !! t = Some s /\ [60] !! t = Some i /\ [0] !! t = Some ev /\
        qL' !! t = Some q' /\ enL !! t = Some en /\ spL !! t = Some sp /\
        0 <= sp /\ (0 < sp -> 100 < s + i - q' - en - ev).
Proof.
  split; [exact store3_well_formed|].
  exact (spill_only_at_capacity 1 0 1 2 90 100 2 3 store3 [60] [0] [5] [5]
           store3_well_formed).
Defined.

Lemma env_rule_inflow env_min s i ev :
  i <= env_min -> env_min < s + i - ev -> env_rule env_min s i ev = i.
Proof.
  intros Hi Hr. unfold env_rule.
  destruct (Qge_bool env_min (s + i - ev)) eqn:E1;
    [apply Qge_bool_true in E1; lra|].
  destruct (Qge_bool env_min i) eqn:E2;
    [reflexivity | apply Qge_bool_false in E2; lra].
Qed.

Lemma env_rule_resource env_min s i ev :
  s + i - ev <= env_min -> env_rule env_min s i ev = py_max 0 (s + i - ev).
Proof.
  intros Hr. unfold env_rule.
  destruct (Qge_bool env_min (s + i - ev)) eqn:E1;
    [reflexivity | apply Qge_bool_false in E1; lra].
Qed.

(** C3 does not hold as stated.  Take one step with [S[0] = 50], inflow 1,
    no evaporation and [env_min = 2].  The water available,
    [S[0] + I[0] - e[0] = 51], covers the required flow many times over, yet
    the first test of the code, [env_min >= I[t]], cuts the environmental
    release to the inflow: [env[0] = 1], not [env_min]. *)
Lemma env_release_counterexample :
  well_formed_call 1 0 1 2 3 store10 [1] [0] [0] [0] /\
  0 <= 2 /\ Forall (Qle 0) [1] /\
  syst_sim 1 0 1 2 50 100 2 3 store10 =
    Ok (4, 6, 5, 3)%nat [[1]; [0]; [0]; [0]; [50; 50]; [0]; [1]] /\
  2 <= 50 + 1 - 0 /\
  ~ (1 == 2).
Proof.
  split; [unfold well_formed_call, long_enough, store10; simpl;
          repeat split; try reflexivity; lia|].
  split; [unfold Qle; simpl; lia|].
  split; [repeat constructor; unfold Qle; simpl; lia|].
  split; [vm_compute; reflexivity|].
  split; [unfold Qle; simpl; lia|].
  unfold Qeq. simpl. lia.
Qed.

(** C3, the environmental release, as the code computes it.  With a
    non-negative [env_min] and non-negative inflows, at every step:
    - [env[t] = env_min] when [env_min < I[t]] and
      [env_min < S[t] + I[t] - e[t]];
    - [env[t] = I[t]] when [I[t] <= env_min < S[t] + I[t] - e[t]]: the
      release is cut to the inflow although the water available covers
      [env_min];
    - [env[t] = max(0, S[t] + I[t] - e[t])] when
      [S[t] + I[t] - e[t] <= env_min];
    and in every case [0 <= env[t] <= env_min]. *)
Theorem env_release_rule N I e d S0 Smax env_min Qreg h iL eL dL qL :
  well_formed_call N I e d Qreg h iL eL dL qL ->
  0 <= env_min ->
  (forall t i, iL !! t = Some i -> 0 <= i) ->
  exists sL enL spL qL',
    returns N I e d S0 Smax env_min Qreg h sL enL spL qL' /\
    forall t, (t < Z.to_nat N)%nat ->
      exists s i ev en,
        sL !! t = Some s /\ iL !! t = Some i /\ eL !! t = Some ev /\
        enL !! t = Some en /\
        (env_min < i -> env_min < s + i - ev -> en = env_min) /\
        (i <= env_min -> env_min < s + i - ev -> en = i) /\
        (s + i - ev <= env_min -> en = py_max 0 (s + i - ev)) /\
        0 <= en /\ en <= env_min.
Proof.
  intros Hwf Hmin Hin.
  destruct (returns_steps N I e d S0 Smax env_min Qreg h iL eL dL qL Hwf)
    as (sL & enL & spL & qL' & Hret & _ & _ & Hsteps).
  exists sL, enL, spL, qL'. split; [assumption|].
  intros t Ht.
  destruct (Hsteps t Ht)
    as (s & i & ev & dm & q & Hs & Hi & Hev & Hdm & Hq & Hs' & Hen & Hsp & Hq').
  exists s, i, ev, (env_t (step env_min Smax s i ev dm q)).
  rewrite step_env in *.
  repeat match goal with |- _ /\ _ => split end; try assumption.
  - apply env_rule_full.
  - apply env_rule_inflow.
  - apply env_rule_resource.
  - apply env_rule_nonneg; [eapply Hin; eassumption | assumption].
  - apply env_rule_nonneg; [eapply Hin; eassumption | assumption].
Qed.

Lemma store2_well_formed : well_formed_call 1 0 1 2 3 store2 [0] [0] [5] [5].
Proof.
  unfold well_formed_call, long_enough, store2. simpl.
  repeat split; try reflexivity; try lia.
Defined.

Lemma env_release_rule_witness :
  (0 <= 4 /\ forall t i, [0] !! t = Some i -> 0 <= i) /\
  exists sL enL spL qL',
    returns 1 0 1 2 3 100 4 3 store2 sL enL spL qL' /\
    forall t, (t < Z.to_nat 1)%nat ->
      exists s i ev en,
        sL !! t = Some s /\ [0] !! t = Some i /\ [0] !! t = Some ev /\
        enL !! t = Some en /\
        (4 < i -> 4 < s + i - ev -> en = 4) /\
        (i <= 4 -> 4 < s + i - ev -> en = i) /\
        (s + i - ev <= 4 -> en = py_max 0 (s + i - ev)) /\
        0 <= en /\ en <= 4.
Proof.
  assert (H4 : 0 <= 4) by (unfold Qle; simpl; lia).
  assert (Hin : forall (t : nat) (i : Q), [0] !! t = Some i -> 0 <= i).
  { intros [|t] i Hi; [|destruct t; discriminate Hi].
    injection Hi as <-. unfold Qle. simpl. lia. }
  split; [split; assumption|].
  exact (env_release_rule 1 0 1 2 3 100 4 3 store2 [0] [0] [5] [5]
           store2_well_formed H4 Hin).
Defined.

(** C10, the environmental release can exceed the inflow.  At a step where
    [I[t] <= env_min], [env_min >= S[t] + I[t] - e[t]] and [S[t] > e[t]], the
    second rule replaces the inflow-capped value by
    [max(0, S[t] + I[t] - e[t])], which is greater than [I[t]].  The witness
    is the input [S[0] = 5], [I[0] = 1], [e[0] = 0], [env_min = 6]. *)
Theorem env_exceeds_inflow N I e d S0 Smax env_min Qreg h iL eL dL qL :
  well_formed_call N I e d Qreg h iL eL dL qL ->
  exists sL enL spL qL',
    returns N I e d S0 Smax env_min Qreg h sL enL spL qL' /\
    sL !! 0%nat = Some S0 /\
    forall t s i ev,
      (t < Z.to_nat N)%nat ->
      sL !! t = Some s -> iL !! t = Some i -> eL !! t = Some ev ->
      i <= env_min -> s + i - ev <= env_min -> ev < s ->
      exists en,
        enL !! t = Some en /\ en = py_max 0 (s + i - ev) /\ i < en.
Proof.
  intros Hwf.
  destruct (returns_steps N I e d S0 Smax env_min Qreg h iL eL dL qL Hwf)
    as (sL & enL & spL & qL' & Hret & _ & HS0 & Hsteps).
  exists sL, enL, spL, qL'. split; [assumption|]. split; [assumption|].
  intros t s i ev Ht Hs Hi Hev Hle1 Hle2 Hlt.
  destruct (Hsteps t Ht)
    as (s1 & i1 & ev1 & dm & q & Hs1 & Hi1 & Hev1 & Hdm & Hq & Hs' & Hen &
        Hsp & Hq').
  rewrite Hs in Hs1. injection Hs1 as <-.
  rewrite Hi in Hi1. injection Hi1 as <-.
  rewrite Hev in Hev1. injection Hev1 as <-.
  exists (env_t (step env_min Smax s i ev dm q)).
  split; [assumption|]. rewrite step_env. unfold env_rule.
  destruct (Qge_bool env_min (s + i - ev)) eqn:E;
    [|apply Qge_bool_false in E; lra].
  split; [reflexivity|].
  destruct (py_max_cases 0 (s + i - ev)) as [[H ->]|[H ->]]; lra.
Qed.

Lemma store10_well_formed : well_formed_call 1 0 1 2 3 store10 [1] [0] [0] [0].
Proof.
  unfold well_formed_call, long_enough, store10. simpl.
  repeat split; try reflexivity; try lia.
Defined.

Lemma env_exceeds_inflow_witness :
  exists sL enL spL qL' en,
    returns 1 0 1 2 5 100 6 3 store10 sL enL spL qL' /\
    enL !! 0%nat = Some en /\ en = py_max 0 (5 + 1 - 0) /\ 1 < en.
Proof.
  destruct (env_exceeds_inflow 1 0 1 2 5 100 6 3 store10 [1] [0] [0] [0]
              store10_well_formed)
    as (sL & enL & spL & qL' & Hret & HS0 & Hall).
  destruct (Hall 0%nat 5 1 0) as (en & Hen & Heq & Hlt).
  - simpl. lia.
  - exact HS0.
  - reflexivity.
  - reflexivity.
  - unfold Qle. simpl. lia.
  - unfold Qle. simpl. lia.
  - unfold Qlt. simpl. lia.
  - exists sL, enL, spL, qL', en. auto.
Defined.

(** * The storage bounds *)

Lemma store_dry_well_formed :
  well_formed_call 1 0 1 2 3 store_dry [0] [1] [0] [0].
Proof.
  unfold well_formed_call, long_enough, store_dry. simpl.
  repeat split; try reflexivity; try lia.
Defined.

(** C1 does not hold as stated.  The simulator has no [Smin] parameter; take
    the least one the claim allows, [Smin = 0].  The call below is well
    formed, its inflow, evaporation, demand and requested release are
    non-negative, [Smin <= S0 <= Smax] holds with [S0 = 0] and [Smax = 100],
    and the release equals the demand; yet the evaporation takes the storage
    to [S[1] = -1], below [Smin]. *)
Lemma storage_bounds_counterexample :
  well_formed_call 1 0 1 2 3 store_dry [0] [1] [0] [0] /\
  Forall (Qle 0) [0] /\ Forall (Qle 0) [1] /\ Forall (Qle 0) [0] /\
  0 <= 0 /\ 0 <= 100 /\
  syst_sim 1 0 1 2 0 100 0 3 store_dry =
    Ok (4, 6, 5, 3)%nat [[0]; [1]; [0]; [0]; [0; -1]; [0]; [0]] /\
  ~ (0 <= -1).
Proof.
  split; [exact store_dry_well_formed|].
  do 3 (split; [repeat constructor; unfold Qle; simpl; lia|]).
  do 2 (split; [unfold Qle; simpl; lia|]).
  split; [vm_compute; reflexivity|].
  unfold Qle. simpl. lia.
Qed.

Section StorageBounds.

Variables (N : Z) (I e d : loc) (S0 Smax env_min : Q) (Qreg : loc).
Variables (h : heap) (iL eL dL qL : list Q).
Variables (sL enL spL qL' : list Q).
Hypothesis Hlen : length sL = (Z.to_nat N + 1)%nat.
Hypothesis HS0 : sL !! 0%nat = Some S0.
Hypothesis Hsteps :
  forall t, (t < Z.to_nat N)%nat ->
    step_at Smax env_min iL eL dL qL sL enL spL qL' t.

Lemma storage_le_Smax t s : S0 <= Smax -> sL !! t = Some s -> s <= Smax.
Proof.
  intros H0 Hs. destruct t as [|t].
  - rewrite HS0 in Hs. injection Hs as <-. assumption.
  - pose proof (lookup_lt_Some _ _ _ Hs) as Hlt.
    destruct (Hsteps t ltac:(lia))
      as (s1 & i & ev & dm & q & Hs1 & Hi & Hev & Hdm & Hq & Hs' & _).
    replace (t + 1)%nat with (Datatypes.S t) in Hs' by lia.
    rewrite Hs in Hs'. injection Hs' as ->.
    rewrite ?step_S_next. apply next_storage_le_Smax.
Qed.

Lemma storage_step_nonneg t s i ev dm q s' :
  (t < Z.to_nat N)%nat ->
  sL !! t = Some s -> iL !! t = Some i -> eL !! t = Some ev ->
  dL !! t = Some dm -> qL !! t = Some q -> sL !! (t + 1)%nat = Some s' ->
  0 <= Smax -> ev <= s + i -> q <= dm -> 0 <= s'.
Proof.
  intros Ht Hs Hi Hev Hdm Hq Hs' HSmax Hevap Hrel.
  destruct (Hsteps t Ht)
    as (s1 & i1 & ev1 & dm1 & q1 & Hs1 & Hi1 & Hev1 & Hdm1 & Hq1 & Hn & _).
  rewrite Hs in Hs1. injection Hs1 as <-.
  rewrite Hi in Hi1. injection Hi1 as <-.
  rewrite Hev in Hev1. injection Hev1 as <-.
  rewrite Hdm in Hdm1. injection Hdm1 as <-.
  rewrite Hq in Hq1. injection Hq1 as <-.
  rewrite Hs' in Hn. injection Hn as ->.
  rewrite ?step_S_next.
  assert (Hr : 0 <= s + i - ev) by lra.
  pose proof (env_rule_within env_min s i ev Hr) as Hen.
  apply next_storage_nonneg; [assumption|].
  apply release_rule_within; [lra | assumption].
Qed.

Lemma storage_nonneg :
  0 <= S0 -> 0 <= Smax ->
  (forall t i ev, (t < Z.to_nat N)%nat ->
     iL !! t = Some i -> eL !! t = Some ev -> ev <= i) ->
  (forall t dm q, (t < Z.to_nat N)%nat ->
     dL !! t = Some dm -> qL !! t = Some q -> q <= dm) ->
  forall t s, sL !! t = Some s -> 0 <= s.
Proof.
  intros H0 HSmax Hevap Hrel. induction t as [|t IH]; intros s Hs.
  - rewrite HS0 in Hs. injection Hs as <-. assumption.
  - pose proof (lookup_lt_Some _ _ _ Hs) as Hlt.
    destruct (Hsteps t ltac:(lia))
      as (s1 & i & ev & dm & q & Hs1 & Hi & Hev & Hdm & Hq & Hs' & _).
    pose proof (IH s1 Hs1) as Hs1pos.
    pose proof (Hevap t i ev ltac:(lia) Hi Hev) as Hle.
    apply (storage_step_nonneg t s1 i ev dm q s); try assumption.
    + lia.
    + replace (t + 1)%nat with (Datatypes.S t) by lia. assumption.
    + lra.
    + eapply Hrel; [|eassumption|eassumption]. lia.
Qed.

End StorageBounds.

(** C1 as amended.  On a well-formed call with [S0 <= Smax] the simulator
    returns, and
    - the spill keeps [S[t] <= Smax] at every [t = 0 .. N];
    - there is no [Smin]: the floor is [0], and [0 <= S[t+1]] holds at every
      step where [0 <= Smax], the evaporation is covered ([e[t] <= S[t] +
      I[t]]) and the requested release is at most the demand
      ([Qreg[t] <= d[t]]);
    - hence [0 <= S[t]] for all [t = 0 .. N] when [0 <= S0] and at every step
      [e[t] <= I[t]] and [Qreg[t] <= d[t]]. *)
Theorem storage_bounds N I e d S0 Smax env_min Qreg h iL eL dL qL :
  well_formed_call N I e d Qreg h iL eL dL qL ->
  S0 <= Smax ->
  exists sL enL spL qL',
    returns N I e d S0 Smax env_min Qreg h sL enL spL qL' /\
    (forall t s, sL !! t = Some s -> s <= Smax) /\
    (forall t s i ev dm q s',
       (t < Z.to_nat N)%nat ->
       sL !! t = Some s -> iL !! t = Some i -> eL !! t = Some ev ->
       dL !! t = Some dm -> qL !! t = Some q -> sL !! (t + 1)%nat = Some s' ->
       0 <= Smax -> ev <= s + i -> q <= dm -> 0 <= s') /\
    (0 <= S0 ->
     (forall t i ev, (t < Z.to_nat N)%nat ->
        iL !! t = Some i -> eL !! t = Some ev -> ev <= i) ->
     (forall t dm q, (t < Z.to_nat N)%nat ->
        dL !! t = Some dm -> qL !! t = Some q -> q <= dm) ->
     forall t s, sL !! t = Some s -> 0 <= s).
Proof.
  intros Hwf HS0max.
  destruct (returns_steps N I e d S0 Smax env_min Qreg h iL eL dL qL Hwf)
    as (sL & enL & spL & qL' & Hret & Hlen & HS0 & Hsteps).
  exists sL, enL, spL, qL'. split; [assumption|]. split; [|split].
  - intros t s. eapply storage_le_Smax; eassumption.
  - intros t s i ev dm q s'. eapply storage_step_nonneg; eassumption.
  - intros H0 Hevap Hrel.
    eapply storage_nonneg; try eassumption. lra.
Qed.

Lemma storage_bounds_witness :
  exists sL enL spL qL',
    returns 1 0 1 2 90 100 2 3 store3 sL enL spL qL' /\
    (forall t s, sL !! t = Some s -> s <= 100) /\
    (forall t s i ev dm q s',
       (t < Z.to_nat 1)%nat ->
       sL !! t = Some s -> [60] !! t = Some i -> [0] !! t = Some ev ->
       [5] !! t = Some dm -> [5] !! t = Some q -> sL !! (t + 1)%nat = Some s' ->
       0 <= 100 -> ev <= s + i -> q <= dm -> 0 <= s') /\
    (0 <= 90 ->
     (forall t i ev, (t < Z.to_nat 1)%nat ->
        [60] !! t = Some i -> [0] !! t = Some ev -> ev <= i) ->
     (forall t dm q, (t < Z.to_nat 1)%nat ->
        [5] !! t = Some dm -> [5] !! t = Some q -> q <= dm) ->
     forall t s, sL !! t = Some s -> 0 <= s).
Proof.
  apply (storage_bounds 1 0 1 2 90 100 2 3 store3 [60] [0] [5] [5]
           store3_well_formed).
  unfold Qle. simpl. lia.
Defined.

(** * The release clamp *)

(** C2 asks for [Qreg[t] = min(u_req[t], max(0, S[t]+I[t]-e[t]-env[t]))]
    whenever the requested release exceeds the water left; the code guards
    the clamp with the demand [d[t]], not with the requested release.  Here
    [d[0] = 0 < 5], so the request of 10 passes unclamped and the storage
    ends at [-5], where the clamp of the claim gives a release of 5. *)
Theorem release_clamp_skipped :
  syst_sim 1 0 1 2 5 100 0 3 store_over =
    Ok (4, 6, 5, 3)%nat [[0]; [0]; [0]; [10]; [5; -5]; [0]; [0]] /\
  Qgt_bool 10 (5 + 0 - 0 - 0) = true /\
  py_min 10 (py_max 0 (5 + 0 - 0 - 0)) = 5.
Proof. repeat split; vm_compute; reflexivity. Qed.

(** Where the guard and the request agree, the code does clamp: if the
    requested release is at most the demand, the returned release is
    [min(u_req, max(0, left))] whenever the request exceeds the water left
    [left = s + i - ev - en], and the request itself otherwise. *)
Lemma release_rule_clamps s i ev en dm q :
  q <= dm ->
  (s + i - ev - en < q ->
   release_rule s i ev en dm q = py_min q (py_max 0 (s + i - ev - en))) /\
  (q <= s + i - ev - en -> release_rule s i ev en dm q == q).
Proof.
  intros Hq. unfold release_rule. split; intros Hr.
  - destruct (Qge_bool dm (s + i - ev - en)) eqn:E; [reflexivity|].
    apply Qge_bool_false in E. lra.
  - destruct (Qge_bool dm (s + i - ev - en)) eqn:E; [|reflexivity].
    destruct (py_max_cases 0 (s + i - ev - en)) as [[H ->]|[H ->]];
      destruct (py_min_cases q (s + i - ev - en)) as [[H' E']|[H' E']];
      destruct (py_min_cases q 0) as [[H2 E2]|[H2 E2]];
      rewrite ?E', ?E2; lra.
Qed.

(** * Failures *)

(** C4 does not hold as stated: the simulator validates nothing.  A call
    with [S0 = 200] above [Smax = 100] and an inflow list longer than [N]
    returns; and a call whose release list is too short raises only at the
    step that indexes past its end, after step 0 has run and has written
    [S[1]], [env[0]] and the caller's [Qreg[0]]. *)
Lemma invalid_input_counterexample :
  ~ (200 <= 100) /\
  syst_sim 1 0 1 2 200 100 2 3 [[10; 7]; [0]; [5]; [5]] =
    Ok (4, 6, 5, 3)%nat [[10; 7]; [0]; [5]; [5]; [200; 100]; [103]; [2]] /\
  syst_sim 2 0 1 2 3 100 4 3 [[0; 0]; [0; 0]; [5; 5]; [5]] =
    Raise IndexError [[0; 0]; [0; 0]; [5; 5]; [0]; [3; 0; 0]; [0; 0]; [3; 0]].
Proof.
  split; [unfold Qle; simpl; lia|].
  split; vm_compute; reflexivity.
Qed.

(** C4 as amended.  For a call on four lists of the store, whatever [S0],
    [Smax] and [env_min] are and however the lists alias: the call raises if
    and only if [N < 0] or one of [I], [e], [d], [Qreg] has fewer than [N]
    entries; what it raises is an [IndexError]; in every other case it
    returns. *)
Theorem failure_iff_short_list N I e d S0 Smax env_min Qreg h iL eL dL qL :
  h !! I = Some iL -> h !! e = Some eL -> h !! d = Some dL ->
  h !! Qreg = Some qL ->
  ((exists x h', syst_sim N I e d S0 Smax env_min Qreg h = Raise x h') <->
   (N < 0 \/ Z.of_nat (length iL) < N \/ Z.of_nat (length eL) < N \/
    Z.of_nat (length dL) < N \/ Z.of_nat (length qL) < N)%Z) /\
  (forall x h', syst_sim N I e d S0 Smax env_min Qreg h = Raise x h' ->
     x = IndexError) /\
  ((exists r h', syst_sim N I e d S0 Smax env_min Qreg h = Ok r h') <->
   (0 <= N /\ N <= Z.of_nat (length iL) /\ N <= Z.of_nat (length eL) /\
    N <= Z.of_nat (length dL) /\ N <= Z.of_nat (length qL))%Z).
Proof.
  intros HI He Hd HQ.
  pose proof (syst_sim_outcome N I e d S0 Smax env_min Qreg h iL eL dL qL
                HI He Hd HQ) as Hout.
  unfold enough, long_enough in Hout.
  destruct (syst_sim N I e d S0 Smax env_min Qreg h) as [r h'|x h'].
  - destruct Hout as (Hen & _). split; [|split].
    + split; [intros (x & h2 & [=]) | lia].
    + intros x h2 [=].
    + split; [lia | eauto].
  - destruct Hout as (Hx & Hne & _). split; [|split].
    + split; [lia | eauto].
    + intros x' h2 [= <- _]. assumption.
    + split; [intros (r & h2 & [=]) | lia].
Qed.

Lemma failure_iff_short_list_witness :
  ((exists x h', syst_sim 2 0 1 2 3 100 4 3 [[0; 0]; [0; 0]; [5; 5]; [5]]
                 = Raise x h') <->
   (2 < 0 \/ Z.of_nat (length [0; 0]) < 2 \/ Z.of_nat (length [0; 0]) < 2 \/
    Z.of_nat (length [5; 5]) < 2 \/ Z.of_nat (length [5]) < 2)%Z) /\
  (forall x h', syst_sim 2 0 1 2 3 100 4 3 [[0; 0]; [0; 0]; [5; 5]; [5]]
                = Raise x h' -> x = IndexError) /\
  ((exists r h', syst_sim 2 0 1 2 3 100 4 3 [[0; 0]; [0; 0]; [5; 5]; [5]]
                 = Ok r h') <->
   (0 <= 2 /\ 2 <= Z.of_nat (length [0; 0]) /\ 2 <= Z.of_nat (length [0; 0]) /\
    2 <= Z.of_nat (length [5; 5]) /\ 2 <= Z.of_nat (length [5]))%Z).
Proof.
  apply (failure_iff_short_list 2 0 1 2 3 100 4 3
           [[0; 0]; [0; 0]; [5; 5]; [5]] [0; 0] [0; 0] [5; 5] [5]);
    reflexivity.
Defined.

(** * What a call writes *)

(** C5 does not hold as stated: the release list the caller passes in is
    written in place.  In the deficit scenario the caller's list [[5]] at
    reference 3 holds [[0]] after the call, and the [Qreg] of the returned
    tuple is that same reference. *)
Lemma frame_counterexample :
  store2 !! 3%nat = Some [5] /\
  exists h',
    syst_sim 1 0 1 2 3 100 4 3 store2 = Ok (4, 6, 5, 3)%nat h' /\
    h' !! 3%nat = Some [0] /\ h' !! 3%nat <> store2 !! 3%nat.
Proof.
  split; [reflexivity|].
  exists [[0]; [0]; [5]; [0]; [3; 0]; [0]; [3]].
  split; [vm_compute; reflexivity|]. split; [reflexivity|].
  simpl. intros [=].
Qed.

(** C5 as amended.  Whatever the call does, returning or raising, every
    object of the caller's store other than the release list [Qreg] is left
    as it was.  When the call returns, [S], [env] and [spill] are three new
    objects, distinct from each other and from everything the caller had,
    the [Qreg] it returns is the caller's own reference, and the list it
    names has kept its length. *)
Theorem frame_outside_Qreg N I e d S0 Smax env_min Qreg h iL eL dL qL :
  h !! I = Some iL -> h !! e = Some eL -> h !! d = Some dL ->
  h !! Qreg = Some qL ->
  (forall S env spill Q h',
     syst_sim N I e d S0 Smax env_min Qreg h = Ok (S, env, spill, Q) h' ->
     Q = Qreg /\ untouched_but Qreg h h' /\
     (length h <= S)%nat /\ (length h <= env)%nat /\
     (length h <= spill)%nat /\ S <> env /\ S <> spill /\ env <> spill /\
     length h' = (length h + 3)%nat /\
     exists qL', h' !! Qreg = Some qL' /\ length qL' = length qL) /\
  (forall x h',
     syst_sim N I e d S0 Smax env_min Qreg h = Raise x h' ->
     untouched_but Qreg h h').
Proof.
  intros HI He Hd HQ.
  pose proof (syst_sim_outcome N I e d S0 Smax env_min Qreg h iL eL dL qL
                HI He Hd HQ) as Hout.
  destruct (syst_sim N I e d S0 Smax env_min Qreg h) as [r h1|x h1].
  - destruct Hout as (_ & Hr & Hsh & Hfr). split.
    + intros S env spill Q h' [= -> ->]. injection Hr as -> -> -> ->.
      repeat match goal with |- _ /\ _ => split end;
        try reflexivity; try assumption; try lia.
      * rewrite <- (shape_length h'), Hsh, length_app, shape_length.
        simpl. lia.
      * apply shape_lookup. rewrite Hsh, lookup_app_l.
        -- apply shape_lookup. eauto.
        -- rewrite shape_length. eapply lookup_lt_Some, HQ.
    + intros x h' [=].
  - destruct Hout as (_ & _ & Hfr). split.
    + intros S env spill Q h' [=].
    + intros x' h' [= _ <-]. assumption.
Qed.

Lemma frame_outside_Qreg_witness :
  (store2 !! 0%nat = Some [0] /\ store2 !! 1%nat = Some [0] /\
   store2 !! 2%nat = Some [5] /\ store2 !! 3%nat = Some [5]) /\
  (forall S env spill Q h',
     syst_sim 1 0 1 2 3 100 4 3 store2 = Ok (S, env, spill, Q) h' ->
     Q = 3%nat /\ untouched_but 3 store2 h' /\
     (length store2 <= S)%nat /\ (length store2 <= env)%nat /\
     (length store2 <= spill)%nat /\ S <> env /\ S <> spill /\ env <> spill /\
     length h' = (length store2 + 3)%nat /\
     exists qL', h' !! 3%nat = Some qL' /\ length qL' = length [5]) /\
  (forall x h',
     syst_sim 1 0 1 2 3 100 4 3 store2 = Raise x h' ->
     untouched_but 3 store2 h').
Proof.
  split; [repeat split|].
  apply (frame_outside_Qreg 1 0 1 2 3 100 4 3 store2 [0] [0] [5] [5]);
    reflexivity.
Defined.

(** * The log-exponential release policy *)

Section PolicyFacts.

Local Open Scope R_scope.

Lemma power_pos x a : 0 < x -> 0 < power x a.
Proof.
  intros Hx. unfold power. destruct (Req_dec_T x 0) as [E|_]; [lra|].
  unfold Rpower. apply exp_pos.
Qed.

Lemma log_branch_at_ref u_frac_min s_frac_ref alpha u_ref :
  0 < s_frac_ref ->
  log_branch u_frac_min s_frac_ref alpha u_ref s_frac_ref = u_ref.
Proof.
  intros Hs. unfold log_branch, log_scale.
  pose proof (power_pos s_frac_ref alpha Hs) as Hp.
  replace (1 / power s_frac_ref alpha * (exp (1 - u_frac_min) - 1) *
           power s_frac_ref alpha + 1)
    with (exp (1 - u_frac_min)) by (field; lra).
  rewrite ln_exp. ring.
Qed.

Lemma exp_branch_at_ref s_frac_ref b u_ref :
  exp_branch s_frac_ref b u_ref s_frac_ref = u_ref.
Proof.
  unfold exp_branch.
  replace (b * (s_frac_ref - s_frac_ref) ^ 2) with 0 by ring.
  rewrite exp_0. ring.
Qed.

(** C9, continuity at the reference storage.  For every valid parameter
    tuple the logarithmic branch and the exponential branch both take the
    value [u_ref] at [s_frac = s_frac_ref], and so does the policy. *)
Theorem policy_continuity u_frac_min s_frac_ref alpha b u_ref :
  0 < u_frac_min < 1 -> 0 < s_frac_ref < 1 -> 0 < alpha -> 0 < u_ref ->
  log_branch u_frac_min s_frac_ref alpha u_ref s_frac_ref = u_ref /\
  exp_branch s_frac_ref b u_ref s_frac_ref = u_ref /\
  log_exponential_release u_frac_min s_frac_ref alpha b u_ref s_frac_ref =
    inr u_ref.
Proof.
  intros [Hu0 Hu1] [Hs0 Hs1] Ha Hr.
  split; [now apply log_branch_at_ref|].
  split; [apply exp_branch_at_ref|].
  unfold log_exponential_release.
  destruct (Rlt_dec 0 s_frac_ref); [|contradiction].
  destruct (Rlt_dec s_frac_ref 1); [|contradiction].
  destruct (Rlt_dec 0 u_frac_min); [|contradiction].
  destruct (Rlt_dec s_frac_ref s_frac_ref) as [Habs|_]; [lra|].
  now rewrite exp_branch_at_ref.
Qed.

Lemma policy_continuity_witness :
  log_branch (1/2) (4/5) (33/50) 20 (4/5) = 20 /\
  exp_branch (4/5) 10 20 (4/5) = 20 /\
  log_exponential_release (1/2) (4/5) (33/50) 10 20 (4/5) = inr 20.
Proof.
  apply (policy_continuity (1/2) (4/5) (33/50) 10 20); lra.
Defined.

End PolicyFacts.

(** * More about the simulator *)

(** X1.  The lists a call returns: [S] has [N + 1] entries and starts with [S0],
    [env] and [spill] have [N] entries, and the release list keeps its
    length and, from index [N] on, its entries: a horizon of 0 returns
    [S = [S0]] and leaves the release list as it was. *)
Theorem result_shape N I e d S0 Smax env_min Qreg h iL eL dL qL :
  well_formed_call N I e d Qreg h iL eL dL qL ->
  exists sL enL spL qL',
    returns N I e d S0 Smax env_min Qreg h sL enL spL qL' /\
    length sL = (Z.to_nat N + 1)%nat /\ sL !! 0%nat = Some S0 /\
    length enL = Z.to_nat N /\ length spL = Z.to_nat N /\
    length qL' = length qL /\
    forall t, (Z.to_nat N <= t)%nat -> qL' !! t = qL !! t.
Proof.
  intros (HI & He & Hd & HQ & HQI & HQe & Hpos & Hlong).
  destruct (syst_sim_trajectory N I e d S0 Smax env_min Qreg h iL eL dL qL
              HI He Hd HQ HQI HQe Hlong Hpos)
    as (h' & sL & enL & spL & qL' & E & HS & Hen & Hsp & HQ' & HlS & Hlen &
        Hlsp & HlQ & HS0 & Htail & _).
  exists sL, enL, spL, qL'.
  split; [exists h', (length h), (length h + 2)%nat, (length h + 1)%nat; auto|].
  auto 10.
Qed.

Lemma result_shape_witness :
  exists sL enL spL qL',
    returns 1 0 1 2 50 100 2 3 store1 sL enL spL qL' /\
    length sL = (Z.to_nat 1 + 1)%nat /\ sL !! 0%nat = Some 50 /\
    length enL = Z.to_nat 1 /\ length spL = Z.to_nat 1 /\
    length qL' = length [5] /\
    forall t, (Z.to_nat 1 <= t)%nat -> qL' !! t = [5] !! t.
Proof.
  exact (result_shape 1 0 1 2 50 100 2 3 store1 [10] [0] [5] [5]
           store1_well_formed).
Defined.

Lemma release_rule_nonneg s i ev en dm q :
  0 <= q -> 0 <= release_rule s i ev en dm q.
Proof. intros Hq. rule_cases; lra. Qed.

Lemma release_rule_feasible s i ev en dm q :
  q <= s + i - ev - en -> release_rule s i ev en dm q = q.
Proof.
  intros Hq. unfold release_rule.
  destruct (Qge_bool dm (s + i - ev - en)); [|reflexivity].
  destruct (py_max_cases 0 (s + i - ev - en)) as [[H ->]|[H ->]].
  - unfold py_min, Qgt_bool.
    destruct (Qle_bool q (s + i - ev - en)) eqn:E; [reflexivity|].
    exfalso. apply Qle_bool_iff in Hq. congruence.
  - unfold py_min, Qgt_bool.
    destruct (Qle_bool q 0) eqn:E; [reflexivity|].
    exfalso. assert (Hq0 : q <= 0) by lra.
    apply Qle_bool_iff in Hq0. congruence.
Qed.

Lemma release_rule_within_demand s i ev en dm q :
  q <= dm ->
  release_rule s i ev en dm q = py_min q (py_max 0 (s + i - ev - en)).
Proof.
  intros Hq. unfold release_rule.
  destruct (Qge_bool dm (s + i - ev - en)) eqn:E; [reflexivity|].
  apply Qge_bool_false in E.
  assert (Hr : q <= s + i - ev - en) by lra.
  pose proof (release_rule_feasible s i ev en (s + i - ev - en) q Hr) as Hf.
  unfold release_rule in Hf.
  assert (Eb : Qge_bool (s + i - ev - en) (s + i - ev - en) = true).
  { unfold Qge_bool. apply Qle_bool_iff. lra. }
  rewrite Eb in Hf. symmetry. exact Hf.
Qed.

(** X2.  The release of every step.  At every step of a well-formed call:
    - a request that is not negative gives a release that is not negative;
    - a request the water left can cover ([Qreg[t] <= S[t] + I[t] - e[t] -
      env[t]]) is returned as it is, whatever the demand;
    - a request that is at most the demand is returned as
      [min(Qreg[t], max(0, S[t] + I[t] - e[t] - env[t]))]. *)
Theorem release_of_step N I e d S0 Smax env_min Qreg h iL eL dL qL :
  well_formed_call N I e d Qreg h iL eL dL qL ->
  exists sL enL spL qL',
    returns N I e d S0 Smax env_min Qreg h sL enL spL qL' /\
    forall t, (t < Z.to_nat N)%nat ->
      exists s i ev en dm q q',
        sL !! t = Some s /\ iL !! t = Some i /\ eL !! t = Some ev /\
        enL !! t = Some en /\ dL !! t = Some dm /\ qL !! t = Some q /\
        qL' !! t = Some q' /\
        (0 <= q -> 0 <= q') /\
        (q <= s + i - ev - en -> q' = q) /\
        (q <= dm -> q' = py_min q (py_max 0 (s + i - ev - en))).
Proof.
  intros Hwf.
  destruct (returns_steps N I e d S0 Smax env_min Qreg h iL eL dL qL Hwf)
    as (sL & enL & spL & qL' & Hret & _ & _ & Hsteps).
  exists sL, enL, spL, qL'. split; [assumption|].
  intros t Ht.
  destruct (Hsteps t Ht)
    as (s & i & ev & dm & q & Hs & Hi & Hev & Hdm & Hq & Hs' & Hen & Hsp & Hq').
  exists s, i, ev, (env_t (step env_min Smax s i ev dm q)), dm, q,
    (Qreg_t (step env_min Smax s i ev dm q)).
  rewrite step_Qreg, step_env in *.
  repeat match goal with |- _ /\ _ => split end; try assumption.
  - apply release_rule_nonneg.
  - apply release_rule_feasible.
  - apply release_rule_within_demand.
Qed.

Lemma release_of_step_witness :
  exists sL enL spL qL',
    returns 1 0 1 2 3 100 4 3 store2 sL enL spL qL' /\
    forall t, (t < Z.to_nat 1)%nat ->
      exists s i ev en dm q q',
        sL !! t = Some s /\ [0] !! t = Some i /\ [0] !! t = Some ev /\
        enL !! t = Some en /\ [5] !! t = Some dm /\ [5] !! t = Some q /\
        qL' !! t = Some q' /\
        (0 <= q -> 0 <= q') /\
        (q <= s + i - ev - en -> q' = q) /\
        (q <= dm -> q' = py_min q (py_max 0 (s + i - ev - en))).
Proof.
  exact (release_of_step 1 0 1 2 3 100 4 3 store2 [0] [0] [5] [5]
           store2_well_formed).
Defined.

Lemma next_storage_full Smax s i ev en q' :
  0 < spill_rule Smax s i ev en q' ->
  next_storage s i ev en q' (spill_rule Smax s i ev en q') == Smax.
Proof.
  unfold next_storage, spill_rule.
  destruct (py_max_cases 0 (s + i - q' - en - ev - Smax)) as [[H ->]|[H ->]];
    intros Hsp; lra.
Qed.

Lemma next_storage_no_spill Smax s i ev en q' :
  s + i - q' - en - ev <= Smax ->
  next_storage s i ev en q' (spill_rule Smax s i ev en q') ==
  s + i - q' - en - ev.
Proof.
  unfold next_storage, spill_rule.
  destruct (py_max_cases 0 (s + i - q' - en - ev - Smax)) as [[H ->]|[H ->]];
    intros Hsp; lra.
Qed.

(** X3.  A spill fills the reservoir.  At every step of a well-formed call, if
    [spill[t] > 0] then [S[t+1]] equals [Smax]; and if the balance
    [S[t] + I[t] - Qreg[t] - env[t] - e[t]] is at most [Smax] then nothing
    is spilled and [S[t+1]] is that balance. *)
Theorem spill_fills_reservoir N I e d S0 Smax env_min Qreg h iL eL dL qL :
  well_formed_call N I e d Qreg h iL eL dL qL ->
  exists sL enL spL qL',
    returns N I e d S0 Smax env_min Qreg h sL enL spL qL' /\
    forall t, (t < Z.to_nat N)%nat ->
      exists s i ev en q' sp s',
        sL !! t = Some s /\ iL !! t = Some i /\ eL !! t = Some ev /\
        enL !! t = Some en /\ qL' !! t = Some q' /\ spL !! t = Some sp /\
        sL !! (t + 1)%nat = Some s' /\
        (0 < sp -> s' == Smax) /\
        (s + i - q' - en - ev <= Smax ->
         sp == 0 /\ s' == s + i - q' - en - ev).
Proof.
  intros Hwf.
  destruct (returns_steps N I e d S0 Smax env_min Qreg h iL eL dL qL Hwf)
    as (sL & enL & spL & qL' & Hret & _ & _ & Hsteps).
  exists sL, enL, spL, qL'. split; [assumption|].
  intros t Ht.
  destruct (Hsteps t Ht)
    as (s & i & ev & dm & q & Hs & Hi & Hev & Hdm & Hq & Hs' & Hen & Hsp & Hq').
  set (o := step env_min Smax s i ev dm q) in *.
  exists s, i, ev, (env_t o), (Qreg_t o), (spill_t o), (S_next o).
  repeat match goal with |- _ /\ _ => split end; try assumption.
  - unfold o. rewrite step_S_next, step_spill. apply next_storage_full.
  - unfold o. rewrite step_S_next, step_spill, step_Qreg, step_env.
    intros Hb. split; [|now apply next_storage_no_spill].
    unfold spill_rule.
    match goal with |- py_max 0 ?x == 0 =>
      destruct (py_max_cases 0 x) as [[H' ->]|[H' ->]]; lra end.
Qed.

Lemma spill_fills_reservoir_witness :
  exists sL enL spL qL',
    returns 1 0 1 2 90 100 2 3 store3 sL enL spL qL' /\
    forall t, (t < Z.to_nat 1)%nat ->
      exists s i ev en q' sp s',
        sL !! t = Some s /\ [60] !! t = Some i /\ [0] !! t = Some ev /\
        enL !! t = Some en /\ qL' !! t = Some q' /\ spL !! t = Some sp /\
        sL !! (t + 1)%nat = Some s' /\
        (0 < sp -> s' == 100) /\
        (s + i - q' - en - ev <= 100 ->
         sp == 0 /\ s' == s + i - q' - en - ev).
Proof.
  exact (spill_fills_reservoir 1 0 1 2 90 100 2 3 store3 [60] [0] [5] [5]
           store3_well_formed).
Defined.

(** ** Simulating a returned schedule again *)

Lemma py_min_idem q m : py_min (py_min q m) m = py_min q m.
Proof.
  unfold py_min at 2 3. destruct (Qgt_bool q m) eqn:E.
  - unfold py_min, Qgt_bool.
    assert (Hm : Qle_bool m m = true) by (apply Qle_bool_iff; lra).
    rewrite Hm. reflexivity.
  - unfold py_min. rewrite E. reflexivity.
Qed.

Lemma release_rule_idem s i ev en dm q :
  release_rule s i ev en dm (release_rule s i ev en dm q) =
  release_rule s i ev en dm q.
Proof.
  unfold release_rule. destruct (Qge_bool dm (s + i - ev - en)).
  - apply py_min_idem.
  - reflexivity.
Qed.

Lemma step_idem env_min Smax s i ev dm q :
  step env_min Smax s i ev dm (Qreg_t (step env_min Smax s i ev dm q)) =
  step env_min Smax s i ev dm q.
Proof.
  rewrite step_Qreg. unfold step. cbv zeta.
  rewrite release_rule_idem. reflexivity.
Qed.

Lemma list_eq_by_lookup (l1 l2 : list Q) n :
  length l1 = n -> length l2 = n ->
  (forall t, (t < n)%nat -> l1 !! t = l2 !! t) -> l1 = l2.
Proof.
  intros H1 H2 Hlt. apply list_eq. intros t.
  destruct (Nat.lt_ge_cases t n) as [Ht|Ht]; [now apply Hlt|].
  rewrite !lookup_ge_None_2 by lia. reflexivity.
Qed.

Section Resimulation.

Variables (N : Z) (Smax env_min S0 : Q) (iL eL dL qL : list Q).
Variables (sL enL spL qL' sL2 enL2 spL2 qL2 : list Q).
Hypothesis H0 : sL !! 0%nat = Some S0.
Hypothesis H02 : sL2 !! 0%nat = Some S0.
Hypothesis Hsteps :
  forall t, (t < Z.to_nat N)%nat ->
    step_at Smax env_min iL eL dL qL sL enL spL qL' t.
Hypothesis Hsteps2 :
  forall t, (t < Z.to_nat N)%nat ->
    step_at Smax env_min iL eL dL qL' sL2 enL2 spL2 qL2 t.

(** The second run reads at [t] what the first run read, and writes what
    the first run wrote. *)
Lemma second_run_agrees t :
  (t < Z.to_nat N)%nat ->
  sL2 !! t = sL !! t ->
  sL2 !! (t + 1)%nat = sL !! (t + 1)%nat /\ enL2 !! t = enL !! t /\
  spL2 !! t = spL !! t /\ qL2 !! t = qL' !! t.
Proof.
  intros Ht Hs.
  destruct (Hsteps t Ht)
    as (s & i & ev & dm & q & Hs1 & Hi & Hev & Hdm & Hq & Hn & Hen & Hsp & Hq').
  destruct (Hsteps2 t Ht)
    as (s2 & i2 & ev2 & dm2 & q2 & Hs2 & Hi2 & Hev2 & Hdm2 & Hq2 & Hn2 &
        Hen2 & Hsp2 & Hq2').
  assert (s2 = s) as -> by congruence.
  assert (i2 = i) as -> by congruence.
  assert (ev2 = ev) as -> by congruence.
  assert (dm2 = dm) as -> by congruence.
  assert (q2 = Qreg_t (step env_min Smax s i ev dm q)) as -> by congruence.
  rewrite step_idem in Hn2, Hen2, Hsp2, Hq2'.
  repeat split; congruence.
Qed.

Lemma second_run_storage t :
  (t <= Z.to_nat N)%nat -> sL2 !! t = sL !! t.
Proof.
  induction t as [|t IH]; intros Ht.
  - congruence.
  - replace (Datatypes.S t) with (t + 1)%nat by lia.
    apply second_run_agrees; [lia|]. apply IH. lia.
Qed.

End Resimulation.

(** X4.  Simulating a returned schedule again changes nothing.  After a
    well-formed call whose release list is not also the demand list, a second
    call with the same arguments on the store the first one left returns the
    same storage, environmental release, spill and release as the first, and
    so leaves the release list as the first call left it. *)
Theorem resimulation_fixed_point N I e d S0 Smax env_min Qreg h iL eL dL qL :
  well_formed_call N I e d Qreg h iL eL dL qL ->
  Qreg <> d ->
  exists h1 S1 env1 spill1 sL enL spL qL',
    syst_sim N I e d S0 Smax env_min Qreg h = Ok (S1, env1, spill1, Qreg) h1 /\
    h1 !! S1 = Some sL /\ h1 !! env1 = Some enL /\ h1 !! spill1 = Some spL /\
    h1 !! Qreg = Some qL' /\
    returns N I e d S0 Smax env_min Qreg h1 sL enL spL qL'.
Proof.
  intros (HI & He & Hd & HQ & HQI & HQe & Hpos & Hlong) HQd.
  destruct (syst_sim_trajectory N I e d S0 Smax env_min Qreg h iL eL dL qL
              HI He Hd HQ HQI HQe Hlong Hpos)
    as (h1 & sL & enL & spL & qL' & E & HS & Hen & Hsp & HQ' & HlS & Hlen &
        Hlsp & HlQ & HS0 & Htail & Hsteps).
  pose proof (syst_sim_outcome N I e d S0 Smax env_min Qreg h iL eL dL qL
                HI He Hd HQ) as Hout.
  rewrite E in Hout. destruct Hout as (_ & _ & _ & Hfr).
  assert (HI1 : h1 !! I = Some iL).
  { rewrite Hfr; [assumption | eapply lookup_lt_Some, HI | congruence]. }
  assert (He1 : h1 !! e = Some eL).
  { rewrite Hfr; [assumption | eapply lookup_lt_Some, He | congruence]. }
  assert (Hd1 : h1 !! d = Some dL).
  { rewrite Hfr; [assumption | eapply lookup_lt_Some, Hd | congruence]. }
  assert (Hlong1 : long_enough (Z.to_nat N) (length iL) (length eL)
                     (length dL) (length qL')).
  { unfold long_enough in *. rewrite HlQ. assumption. }
  destruct (syst_sim_trajectory N I e d S0 Smax env_min Qreg h1 iL eL dL qL'
              HI1 He1 Hd1 HQ' HQI HQe Hlong1 Hpos)
    as (h2 & sL2 & enL2 & spL2 & qL2 & E2 & HS2 & Hen2 & Hsp2 & HQ2 & HlS2 &
        Hlen2 & Hlsp2 & HlQ2 & HS02 & Htail2 & Hsteps2).
  pose proof (second_run_storage N Smax env_min S0 iL eL dL qL
                sL enL spL qL' sL2 enL2 spL2 qL2 HS0 HS02 Hsteps Hsteps2)
    as Hstor.
  assert (Hagree : forall t, (t < Z.to_nat N)%nat ->
            enL2 !! t = enL !! t /\ spL2 !! t = spL !! t /\
            qL2 !! t = qL' !! t).
  { intros t Ht.
    destruct (second_run_agrees N Smax env_min iL eL dL qL
                sL enL spL qL' sL2 enL2 spL2 qL2 Hsteps Hsteps2 t Ht)
      as (_ & ? & ? & ?); [apply Hstor; lia | auto]. }
  assert (sL2 = sL) as ->.
  { apply (list_eq_by_lookup _ _ (Z.to_nat N + 1)%nat); try assumption.
    intros t Ht. apply Hstor. lia. }
  assert (enL2 = enL) as ->.
  { apply (list_eq_by_lookup _ _ (Z.to_nat N)); try assumption.
    intros t Ht. now apply Hagree. }
  assert (spL2 = spL) as ->.
  { apply (list_eq_by_lookup _ _ (Z.to_nat N)); try assumption.
    intros t Ht. now apply Hagree. }
  assert (qL2 = qL') as ->.
  { apply (list_eq_by_lookup _ _ (length qL')); try congruence.
    intros t Ht. destruct (Nat.lt_ge_cases t (Z.to_nat N)) as [Hlt|Hge].
    - now apply Hagree.
    - now apply Htail2. }
  exists h1, (length h), (length h + 2)%nat, (length h + 1)%nat,
    sL, enL, spL, qL'.
  repeat match goal with |- _ /\ _ => split end; try assumption.
  exists h2, (length h1), (length h1 + 2)%nat, (length h1 + 1)%nat. auto.
Qed.

Lemma resimulation_fixed_point_witness :
  exists h1 S1 env1 spill1 sL enL spL qL',
    syst_sim 1 0 1 2 3 100 4 3 store2 = Ok (S1, env1, spill1, 3%nat) h1 /\
    h1 !! S1 = Some sL /\ h1 !! env1 = Some enL /\ h1 !! spill1 = Some spL /\
    h1 !! 3%nat = Some qL' /\
    returns 1 0 1 2 3 100 4 3 h1 sL enL spL qL'.
Proof.
  apply (resimulation_fixed_point 1 0 1 2 3 100 4 3 store2 [0] [0] [5] [5]
           store2_well_formed).
  lia.
Defined.

(** ** The water balance of the whole horizon *)

Lemma np_sum_app (l1 l2 : list Q) : np_sum (l1 ++ l2) == np_sum l1 + np_sum l2.
Proof.
  unfold np_sum. induction l1 as [|x l1 IH]; simpl.
  - lra.
  - rewrite IH. lra.
Qed.

Lemma np_sum_take_S (l : list Q) k x :
  l !! k = Some x -> np_sum (take (Datatypes.S k) l) == np_sum (take k l) + x.
Proof.
  intros Hx. rewrite (take_S_r l k x Hx), np_sum_app.
  unfold np_sum. simpl. lra.
Qed.

(** X5.  The storage after [k] steps is the initial storage plus everything that
    flowed in, less everything that left, over the first [k] steps:
    [S[k] = S0 + sum(I[:k]) - sum(Qreg[:k]) - sum(env[:k]) - sum(e[:k]) -
    sum(spill[:k])] for every [k = 0 .. N], with [Qreg] the returned
    release. *)
Theorem cumulative_balance N I e d S0 Smax env_min Qreg h iL eL dL qL :
  well_formed_call N I e d Qreg h iL eL dL qL ->
  exists sL enL spL qL',
    returns N I e d S0 Smax env_min Qreg h sL enL spL qL' /\
    forall k sk, (k <= Z.to_nat N)%nat -> sL !! k = Some sk ->
      sk == S0 + np_sum (take k iL) - np_sum (take k qL') -
            np_sum (take k enL) - np_sum (take k eL) - np_sum (take k spL).
Proof.
  intros Hwf.
  destruct (returns_steps N I e d S0 Smax env_min Qreg h iL eL dL qL Hwf)
    as (sL & enL & spL & qL' & Hret & _ & HS0 & Hsteps).
  exists sL, enL, spL, qL'. split; [assumption|].
  induction k as [|k IH]; intros sk Hk Hsk.
  - rewrite HS0 in Hsk. injection Hsk as <-. rewrite !take_0.
    unfold np_sum. simpl. lra.
  - destruct (Hsteps k ltac:(lia))
      as (s & i & ev & dm & q & Hs & Hi & Hev & Hdm & Hq & Hs' & Hen & Hsp &
          Hq').
    replace (k + 1)%nat with (Datatypes.S k) in Hs' by lia.
    rewrite Hsk in Hs'. injection Hs' as ->.
    specialize (IH s ltac:(lia) Hs).
    rewrite (np_sum_take_S iL k i Hi), (np_sum_take_S eL k ev Hev),
      (np_sum_take_S qL' k _ Hq'), (np_sum_take_S enL k _ Hen),
      (np_sum_take_S spL k _ Hsp).
    rewrite ?step_S_next, ?step_spill, ?step_Qreg, ?step_env.
    unfold next_storage. lra.
Qed.

Lemma cumulative_balance_witness :
  exists sL enL spL qL',
    returns 1 0 1 2 50 100 2 3 store1 sL enL spL qL' /\
    forall k sk, (k <= Z.to_nat 1)%nat -> sL !! k = Some sk ->
      sk == 50 + np_sum (take k [10]) - np_sum (take k qL') -
            np_sum (take k enL) - np_sum (take k [0]) - np_sum (take k spL).
Proof.
  exact (cumulative_balance 1 0 1 2 50 100 2 3 store1 [10] [0] [5] [5]
           store1_well_formed).
Defined.

(** * The objective function *)

(** ** Stepping through [auto_optim] *)

Lemma bind2_Ok {A B} (m : M2 A) (k : A -> M2 B) h a h' :
  m h = Ok2 a h' -> (m ≫= k) h = k a h'.
Proof. intros E. unfold mbind, M2_bind. now rewrite E. Qed.

Lemma bind2_Raise {A B} (m : M2 A) (k : A -> M2 B) h x h' :
  m h = Raise2 x h' -> (m ≫= k) h = Raise2 x h'.
Proof. intros E. unfold mbind, M2_bind. now rewrite E. Qed.

Lemma lift_getitem_Ok (h : heap) a l t v :
  h !! a = Some l -> l !! t = Some v -> lift (getitem a t) h = Ok2 v h.
Proof. intros Ha Ht. unfold lift. now rewrite (getitem_Ok h a l t v Ha Ht). Qed.

Lemma lift_getitem_short (h : heap) a l t :
  h !! a = Some l -> (length l <= t)%nat ->
  lift (getitem a t) h = Raise2 (PyRaise IndexError) h.
Proof.
  intros Ha Ht. unfold lift, getitem. rewrite Ha.
  now rewrite (lookup_ge_None_2 l t Ht).
Qed.

Lemma lift_getlist_Ok (h : heap) a l :
  h !! a = Some l -> lift (getlist a) h = Ok2 l h.
Proof. intros Ha. unfold lift, getlist. now rewrite Ha. Qed.

(** ** Broadcasting *)

Lemma broadcast_is_Some f (a b : list Q) :
  is_Some (broadcast f a b) <->
  length a = length b \/ length a = 1%nat \/ length b = 1%nat.
Proof.
  unfold broadcast. destruct (decide (length a = length b)) as [E|E].
  - split; [auto | eauto].
  - destruct a as [|x [|x' a]]; destruct b as [|y [|y' b]]; simpl in *;
      (split;
       [ intros [c Hc]; first [discriminate Hc | lia]
       | intros H; first [eexists; reflexivity | exfalso; lia] ]).
Qed.

Lemma broadcast_same_length f (a b : list Q) :
  length a = length b -> broadcast f a b = Some (zip_with f a b).
Proof.
  intros E. unfold broadcast.
  destruct (decide (length a = length b)); [reflexivity | contradiction].
Qed.

Lemma broadcast_length f (a b c : list Q) :
  broadcast f a b = Some c -> (1 < length b)%nat -> length c = length b.
Proof.
  unfold broadcast. destruct (decide (length a = length b)) as [E|E].
  - intros [= <-] _. rewrite length_zip_with. lia.
  - destruct a as [|x [|x' a]]; destruct b as [|y [|y' b]]; simpl in *;
      intros [= <-] Hb; try lia; simpl; rewrite ?length_map; simpl; lia.
Qed.

(** ** The run of [auto_optim] *)

Lemma penalties_run N d ms s env spill Qreg (hs : heap) dL qL' msL sL :
  hs !! d = Some dL -> hs !! Qreg = Some qL' -> hs !! ms = Some msL ->
  hs !! s = Some sL ->
  penalties N d ms (s, env, spill, Qreg) hs =
  match deficit_penalty N dL qL' with
  | None => Raise2 ValueError hs
  | Some sdpen =>
      match storage_penalty N msL sL with
      | None => Raise2 ValueError hs
      | Some lspen => Ok2 (sdpen, lspen) hs
      end
  end.
Proof.
  intros Hd HQ Hms Hs. unfold penalties.
  rewrite (bind2_Ok _ _ _ _ _ (lift_getlist_Ok hs d dL Hd)).
  rewrite (bind2_Ok _ _ _ _ _ (lift_getlist_Ok hs Qreg qL' HQ)).
  destruct (deficit_penalty N dL qL') as [sdpen|]; [|reflexivity].
  rewrite (bind2_Ok _ _ _ _ _ (eq_refl : np (Some sdpen) hs = Ok2 sdpen hs)).
  rewrite (bind2_Ok _ _ _ _ _ (lift_getlist_Ok hs ms msL Hms)).
  rewrite (bind2_Ok _ _ _ _ _ (lift_getlist_Ok hs s sL Hs)).
  destruct (storage_penalty N msL sL) as [lspen|]; reflexivity.
Qed.

Section AutoOptim.

Variables (N : Z) (I e d : loc) (s_0 s_max env_min : Q) (ms vars : loc).
Variables (h : heap) (iL eL dL msL : list Q).
Hypothesis HI : h !! I = Some iL.
Hypothesis He : h !! e = Some eL.
Hypothesis Hd : h !! d = Some dL.
Hypothesis Hms : h !! ms = Some msL.

Ltac read_vars Hv :=
  repeat first
    [ erewrite bind2_Ok by (eapply lift_getitem_Ok; [exact Hv | reflexivity])
    | erewrite bind2_Raise
        by (eapply lift_getitem_short; [exact Hv | simpl; lia]) ].

(** Fewer than eight entries in [vars]: the first missing one raises. *)
Lemma auto_optim_short vL :
  h !! vars = Some vL -> (length vL < 8)%nat ->
  auto_optim N I e d s_0 s_max env_min ms vars h =
  Raise2 (PyRaise IndexError) h.
Proof.
  intros Hv Hlen. unfold auto_optim.
  destruct vL as [|v1 [|v2 [|v3 [|v4 [|v5 [|v6 [|v7 [|v8 rest]]]]]]]];
    try (read_vars Hv; reflexivity).
  simpl in Hlen. lia.
Qed.

(** With eight entries or more, [auto_optim] is the simulation of the first
    eight, on the store with the new release list behind, followed by the
    penalties. *)
Lemma auto_optim_long vL :
  h !! vars = Some vL -> (8 <= length vL)%nat ->
  auto_optim N I e d s_0 s_max env_min ms vars h =
  (r ← lift (syst_sim N I e d s_0 s_max env_min (length h));
   penalties N d ms r) (h ++ [take 8 vL]).
Proof.
  intros Hv Hlen. unfold auto_optim.
  destruct vL as [|v1 [|v2 [|v3 [|v4 [|v5 [|v6 [|v7 [|v8 rest]]]]]]]];
    try (simpl in Hlen; lia).
  read_vars Hv. reflexivity.
Qed.

Lemma auto_optim_run vL :
  h !! vars = Some vL -> (8 <= length vL)%nat ->
  (~ enough N iL eL dL (take 8 vL) /\
   exists hs,
     auto_optim N I e d s_0 s_max env_min ms vars h =
       Raise2 (PyRaise IndexError) hs /\
     untouched_but (length h) (h ++ [take 8 vL]) hs) \/
  (enough N iL eL dL (take 8 vL) /\
   exists hs sL enL spL qL',
     syst_sim N I e d s_0 s_max env_min (length h) (h ++ [take 8 vL]) =
       Ok ((length h + 1)%nat, (length h + 1 + 2)%nat,
           (length h + 1 + 1)%nat, length h) hs /\
     returns N I e d s_0 s_max env_min (length h) (h ++ [take 8 vL])
       sL enL spL qL' /\
     length sL = (Z.to_nat N + 1)%nat /\ length qL' = 8%nat /\
     sL !! 0%nat = Some s_0 /\
     (forall t, (Z.to_nat N <= t)%nat -> qL' !! t = take 8 vL !! t) /\
     (forall t, (t < Z.to_nat N)%nat ->
        step_at s_max env_min iL eL dL (take 8 vL) sL enL spL qL' t) /\
     untouched_but (length h) (h ++ [take 8 vL]) hs /\
     auto_optim N I e d s_0 s_max env_min ms vars h =
       match deficit_penalty N dL qL' with
       | None => Raise2 ValueError hs
       | Some sdpen =>
           match storage_penalty N msL sL with
           | None => Raise2 ValueError hs
           | Some lspen => Ok2 (sdpen, lspen) hs
           end
       end).
Proof.
  intros Hv Hlen.
  set (ql := take 8 vL). set (h1 := h ++ [ql]).
  assert (Hql : length ql = 8%nat) by (unfold ql; rewrite length_take; lia).
  pose proof (lookup_lt_Some _ _ _ HI) as HIlt.
  pose proof (lookup_lt_Some _ _ _ He) as Helt.
  pose proof (lookup_lt_Some _ _ _ Hd) as Hdlt.
  pose proof (lookup_lt_Some _ _ _ Hms) as Hmslt.
  assert (HI1 : h1 !! I = Some iL) by (unfold h1; now rewrite lookup_app_l).
  assert (He1 : h1 !! e = Some eL) by (unfold h1; now rewrite lookup_app_l).
  assert (Hd1 : h1 !! d = Some dL) by (unfold h1; now rewrite lookup_app_l).
  assert (Hms1 : h1 !! ms = Some msL) by (unfold h1; now rewrite lookup_app_l).
  assert (HQ1 : h1 !! length h = Some ql) by (unfold h1; apply list_lookup_middle; reflexivity).
  assert (Hlen1 : length h1 = (length h + 1)%nat)
    by (unfold h1; rewrite length_app; reflexivity).
  rewrite (auto_optim_long vL Hv Hlen). fold ql h1.
  pose proof (syst_sim_outcome N I e d s_0 s_max env_min (length h) h1
                iL eL dL ql HI1 He1 Hd1 HQ1) as Hout.
  destruct (syst_sim N I e d s_0 s_max env_min (length h) h1)
    as [r hs|x hs] eqn:E.
  - right. destruct Hout as (Hen & Hr & Hsh & Hfr).
    split; [assumption|]. destruct Hen as [Hpos Hlong].
    destruct (syst_sim_trajectory N I e d s_0 s_max env_min (length h) h1
                iL eL dL ql HI1 He1 Hd1 HQ1 ltac:(lia) ltac:(lia) Hlong Hpos)
      as (h' & sL & enL & spL & qL' & E' & HS & Henl & Hsp & HQ' & HlS &
          Hlen' & Hlsp & HlQ & HS0 & Htail & Hsteps).
    rewrite E in E'. injection E' as Hr' <-. subst r.
    rewrite Hlen1 in *.
    exists hs, sL, enL, spL, qL'.
    repeat match goal with |- _ /\ _ => split end; try assumption;
      try congruence.
    { exists hs, (length h + 1)%nat, (length h + 1 + 2)%nat,
        (length h + 1 + 1)%nat. auto. }
    assert (Hds : hs !! d = Some dL) by (rewrite Hfr; [assumption|lia|lia]).
    assert (Hmss : hs !! ms = Some msL) by (rewrite Hfr; [assumption|lia|lia]).
    erewrite bind2_Ok by (unfold lift; rewrite E; reflexivity).
    apply penalties_run; assumption.
  - left. destruct Hout as (Hx & Hne & Hfr). subst x.
    split; [assumption|]. exists hs. split; [|assumption].
    apply bind2_Raise. unfold lift. rewrite E. reflexivity.
Qed.

End AutoOptim.

(** ** Cutting off the fraction *)

Lemma int_part_bounds x :
  0 <= x -> inject_Z (int_part x) <= x /\ x < inject_Z (int_part x) + 1.
Proof.
  destruct x as [a b]. unfold int_part, Qle, Qlt, Qplus, inject_Z. simpl.
  intros Ha. assert (Ha' : (0 <= a)%Z) by lia.
  rewrite Z.quot_div_nonneg by lia. change (Z.pos (1 * 1)) with 1%Z.
  pose proof (Z.mul_div_le a (Z.pos b) ltac:(lia)).
  pose proof (Z.mul_succ_div_gt a (Z.pos b) ltac:(lia)).
  split; lia.
Qed.

Lemma int_part_nonneg x : 0 <= x -> (0 <= int_part x)%Z.
Proof.
  destruct x as [a b]. unfold Qle, int_part. simpl. intros Ha.
  apply Z.quot_pos; lia.
Qed.

Lemma int_part_mono x y :
  0 <= x -> x <= y -> (int_part x <= int_part y)%Z.
Proof.
  intros Hx Hxy.
  destruct (int_part_bounds x Hx) as [Hle _].
  destruct (int_part_bounds y ltac:(lra)) as [_ Hlt].
  destruct (Z.le_gt_cases (int_part x) (int_part y)) as [|Hgt];
    [assumption|]. exfalso.
  assert (H : inject_Z (int_part y + 1) <= inject_Z (int_part x))
    by (rewrite <- Zle_Qle; lia).
  rewrite inject_Z_plus in H. change (inject_Z 1) with 1 in H. lra.
Qed.

Lemma int_part_zero_iff x : 0 <= x -> (int_part x = 0%Z <-> x < 1).
Proof.
  intros Hx. destruct (int_part_bounds x Hx) as [Hle Hlt].
  pose proof (int_part_nonneg x Hx) as Hnn. split.
  - intros E. rewrite E in Hlt. change (inject_Z 0) with 0 in Hlt. lra.
  - intros H1.
    assert (H : inject_Z (int_part x) < inject_Z 1)
      by (change (inject_Z 1) with 1; lra).
    rewrite <- Zlt_Qlt in H. lia.
Qed.

(** ** The cast to a 64-bit integer *)

Lemma in_int64_spec x :
  in_int64 x = true <->
  inject_Z int64_min <= x /\ x <= inject_Z int64_max.
Proof.
  unfold in_int64. rewrite andb_true_iff, !Qle_bool_iff. reflexivity.
Qed.

(** Within the range the cast is the integer part. *)
Lemma astype_int_in_range x :
  0 <= x -> in_int64 x = true -> astype_int x = int_part x.
Proof.
  intros Hx Hr. apply in_int64_spec in Hr as [_ Hmax].
  unfold astype_int.
  destruct (decide (int64_min <= int_part x <= int64_max)%Z) as [|Hout];
    [reflexivity|].
  exfalso. apply Hout.
  pose proof (int_part_nonneg x Hx) as Hnn.
  destruct (int_part_bounds x Hx) as [Hle _].
  split; [unfold int64_min; lia|].
  rewrite Zle_Qle. lra.
Qed.

Lemma astype_int_nonneg x :
  0 <= x -> in_int64 x = true -> (0 <= astype_int x)%Z.
Proof.
  intros Hx Hr. rewrite (astype_int_in_range x Hx Hr).
  now apply int_part_nonneg.
Qed.

Lemma in_int64_below x y :
  0 <= x -> x <= y -> in_int64 y = true -> in_int64 x = true.
Proof.
  intros Hx Hxy Hr. apply in_int64_spec in Hr as [_ Hmax].
  apply in_int64_spec. split; [|lra].
  assert (H : inject_Z int64_min <= inject_Z 0)
    by (rewrite <- Zle_Qle; unfold int64_min; lia).
  change (inject_Z 0) with 0 in H. lra.
Qed.

Lemma astype_int_mono x y :
  0 <= x -> x <= y -> in_int64 y = true ->
  (astype_int x <= astype_int y)%Z.
Proof.
  intros Hx Hxy Hr.
  rewrite (astype_int_in_range x Hx (in_int64_below x y Hx Hxy Hr)).
  rewrite (astype_int_in_range y ltac:(lra) Hr).
  now apply int_part_mono.
Qed.

(** A result of 0 is never the mark of a value beyond the range. *)
Lemma astype_int_zero_iff x : 0 <= x -> (astype_int x = 0%Z <-> x < 1).
Proof.
  intros Hx. unfold astype_int.
  destruct (decide (int64_min <= int_part x <= int64_max)%Z) as [Hin|Hout].
  - now apply int_part_zero_iff.
  - split; [unfold int64_min; intros [=]|].
    intros H1. exfalso. apply Hout.
    rewrite (proj2 (int_part_zero_iff x Hx) H1).
    unfold int64_min, int64_max. lia.
Qed.

(** ** Sums *)

Lemma np_sum_cons x (l : list Q) : np_sum (x :: l) = x + np_sum l.
Proof. reflexivity. Qed.

Lemma np_sum_nonneg (l : list Q) : Forall (Qle 0) l -> 0 <= np_sum l.
Proof.
  induction 1 as [|x l Hx _ IH].
  - unfold np_sum. simpl. lra.
  - rewrite np_sum_cons. lra.
Qed.

Lemma np_sum_mono (l1 l2 : list Q) :
  Forall2 Qle l1 l2 -> np_sum l1 <= np_sum l2.
Proof.
  induction 1 as [|x y l1 l2 Hxy _ IH].
  - lra.
  - rewrite !np_sum_cons. lra.
Qed.

Lemma np_sum_elem_le (l : list Q) t x :
  Forall (Qle 0) l -> l !! t = Some x -> x <= np_sum l.
Proof.
  intros Hl. revert t. induction Hl as [|y l Hy Hl IH]; intros t Ht.
  - discriminate.
  - rewrite np_sum_cons. pose proof (np_sum_nonneg l Hl).
    destruct t as [|t]; simpl in Ht.
    + injection Ht as ->. lra.
    + specialize (IH t Ht). lra.
Qed.

Lemma np_sum_zero (l : list Q) : Forall (fun x => x == 0) l -> np_sum l == 0.
Proof.
  induction 1 as [|x l Hx _ IH].
  - reflexivity.
  - rewrite np_sum_cons. lra.
Qed.

(** ** The penalties *)

Lemma py_max_zero_nonneg x : 0 <= py_max x 0.
Proof. destruct (py_max_cases x 0) as [[H ->]|[H ->]]; lra. Qed.

Lemma broadcast_Forall f (P : Q -> Prop) (a b c : list Q) :
  broadcast f a b = Some c ->
  (forall x y, y ∈ b -> P (f x y)) -> Forall P c.
Proof.
  unfold broadcast. intros Hc HP.
  assert (Hzip : Forall P (zip_with f a b)).
  { apply Forall_lookup. intros t v Hv.
    apply lookup_zip_with_Some in Hv as (x & y & -> & _ & Hy).
    apply HP. eapply list_elem_of_lookup_2, Hy. }
  assert (Hmap1 : forall x, Forall P (map (f x) b)).
  { intros x. apply Forall_forall. intros v Hv.
    apply list_elem_of_fmap in Hv as (w & -> & Hw). now apply HP. }
  assert (Hmap2 : forall y, y ∈ b -> Forall P (map (fun x => f x y) a)).
  { intros y Hy. apply Forall_forall. intros v Hv.
    apply list_elem_of_fmap in Hv as (w & -> & Hw). now apply HP. }
  destruct (decide (length a = length b)) as [E|E].
  - injection Hc as <-. exact Hzip.
  - destruct a as [|x [|x' a]]; destruct b as [|y [|y' b]];
      try discriminate Hc; injection Hc as <-;
      first [exact (Hmap1 x) | apply (Hmap2 y); left].
Qed.

Lemma np_maximum_zeros_nonneg (x : list Q) m y :
  np_maximum x (replicate m 0) = Some y -> Forall (Qle 0) y.
Proof.
  intros Hy. eapply broadcast_Forall; [exact Hy|].
  intros a z Hz. apply elem_of_replicate in Hz as [-> _].
  apply py_max_zero_nonneg.
Qed.

Lemma square_nonneg x : 0 <= x * x.
Proof. nra. Qed.

Lemma np_square_nonneg (y : list Q) : Forall (Qle 0) (np_square y).
Proof.
  unfold np_square. apply Forall_forall. intros v Hv.
  apply list_elem_of_fmap in Hv as (w & -> & _). apply square_nonneg.
Qed.

Lemma deficit_penalty_nonneg N dL qL p :
  deficit_penalty N dL qL = Some p -> deficit_in_range N dL qL = true ->
  (0 <= p)%Z.
Proof.
  unfold deficit_penalty, deficit_in_range.
  destruct (np_subtract dL qL) as [x|]; [|discriminate].
  simpl. destruct (np_maximum x _) as [y|]; [|discriminate].
  simpl. intros [= <-] Hr. apply andb_true_iff in Hr as [_ Hr].
  apply astype_int_nonneg; [|assumption].
  apply np_sum_nonneg, np_square_nonneg.
Qed.

Lemma storage_penalty_nonneg N msL sL p :
  storage_penalty N msL sL = Some p -> storage_in_range N msL sL = true ->
  (0 <= p)%Z.
Proof.
  unfold storage_penalty, storage_in_range.
  destruct (np_subtract msL sL) as [x|]; [|discriminate].
  simpl. destruct (np_maximum x _) as [y|] eqn:Ey; [|discriminate].
  simpl. intros [= <-] Hr. apply andb_true_iff in Hr as [_ Hr].
  apply astype_int_nonneg; [|assumption].
  apply np_sum_nonneg. eapply np_maximum_zeros_nonneg, Ey.
Qed.

(** ** Comparing two runs of a numpy operation *)

Lemma Forall2_zip_with_rel f (Ra Rb R : Q -> Q -> Prop) a a' b b' :
  Forall2 Ra a a' -> Forall2 Rb b b' ->
  (forall x x' y y', Ra x x' -> Rb y y' -> R (f x y) (f x' y')) ->
  Forall2 R (zip_with f a b) (zip_with f a' b').
Proof.
  intros HA. revert b b'.
  induction HA as [|x x' a a' Hx HA IH]; intros b b' HB HR.
  - constructor.
  - destruct HB as [|y y' b b' Hy HB]; simpl; constructor; auto.
Qed.

Lemma Forall2_map_rel (g g' : Q -> Q) (Rb R : Q -> Q -> Prop) b b' :
  Forall2 Rb b b' -> (forall y y', Rb y y' -> R (g y) (g' y')) ->
  Forall2 R (map g b) (map g' b').
Proof.
  intros HB HR. induction HB as [|y y' b b' Hy HB IH]; simpl; constructor; auto.
Qed.

Lemma broadcast_Forall2 f (Ra Rb R : Q -> Q -> Prop) a a' b b' c c' :
  Forall2 Ra a a' -> Forall2 Rb b b' ->
  (forall x x' y y', Ra x x' -> Rb y y' -> R (f x y) (f x' y')) ->
  broadcast f a b = Some c -> broadcast f a' b' = Some c' -> Forall2 R c c'.
Proof.
  intros HA HB HR. unfold broadcast.
  pose proof (Forall2_length _ _ _ HA) as La.
  pose proof (Forall2_length _ _ _ HB) as Lb.
  assert (M1 : forall x x', Ra x x' ->
                 Forall2 R (map (f x) b) (map (f x') b')).
  { intros x x' Hx. apply Forall2_map_rel with Rb; auto. }
  assert (M2 : forall y y', Rb y y' ->
                 Forall2 R (map (fun x => f x y) a) (map (fun x => f x y') a')).
  { intros y y' Hy. apply Forall2_map_rel with Ra; auto. }
  destruct (decide (length a = length b)) as [E|E];
    destruct (decide (length a' = length b')) as [E'|E']; try lia.
  - intros [= <-] [= <-]. now apply Forall2_zip_with_rel with Ra Rb.
  - destruct HA as [|x x' a a' Hx HA]; [|destruct HA as [|x2 x2' a a' Hx2 HA]];
      (destruct HB as [|y y' b b' Hy HB];
       [|destruct HB as [|y2 y2' b b' Hy2 HB]]);
      simpl in E, E'; try lia; intros Hc Hc'; try discriminate Hc;
      injection Hc as <-; injection Hc' as <-;
      first [exact (M1 x x' Hx) | exact (M2 y y' Hy)].
Qed.

(** ** What a returning call has computed *)

(** A call of [auto_optim] that returns has read eight entries of [vars],
    simulated them, and computed the two penalties from the demand and the
    returned release, and from the threshold and the returned storage. *)
Lemma auto_optim_returned N I e d s_0 s_max env_min ms vars h iL eL dL msL vL
    sdpen lspen hs :
  h !! I = Some iL -> h !! e = Some eL -> h !! d = Some dL ->
  h !! ms = Some msL -> h !! vars = Some vL ->
  auto_optim N I e d s_0 s_max env_min ms vars h = Ok2 (sdpen, lspen) hs ->
  (8 <= length vL)%nat /\ enough N iL eL dL (take 8 vL) /\
  exists sL enL spL qL',
    returns N I e d s_0 s_max env_min (length h) (h ++ [take 8 vL])
      sL enL spL qL' /\
    length sL = (Z.to_nat N + 1)%nat /\ length qL' = 8%nat /\
    sL !! 0%nat = Some s_0 /\
    (forall t, (Z.to_nat N <= t)%nat -> qL' !! t = take 8 vL !! t) /\
    (forall t, (t < Z.to_nat N)%nat ->
       step_at s_max env_min iL eL dL (take 8 vL) sL enL spL qL' t) /\
    untouched_but (length h) (h ++ [take 8 vL]) hs /\
    deficit_penalty N dL qL' = Some sdpen /\
    storage_penalty N msL sL = Some lspen.
Proof.
  intros HI He Hd Hms Hv E.
  destruct (le_lt_dec 8 (length vL)) as [Hlen|Hlen].
  2:{ rewrite (auto_optim_short N I e d s_0 s_max env_min ms vars h vL Hv Hlen)
        in E. discriminate E. }
  split; [assumption|].
  destruct (auto_optim_run N I e d s_0 s_max env_min ms vars h iL eL dL msL
              HI He Hd Hms vL Hv Hlen)
    as [(_ & hs' & E' & _)|
        (Hen & hs' & sL & enL & spL & qL' & _ & Hret & HlS & HlQ & HS0 &
         Htail & Hsteps & Hfr & E')].
  - rewrite E in E'. discriminate E'.
  - split; [assumption|]. exists sL, enL, spL, qL'. rewrite E in E'.
    destruct (deficit_penalty N dL qL') as [p|]; [|discriminate E'].
    destruct (storage_penalty N msL sL) as [p'|]; [|discriminate E'].
    injection E' as -> -> ->. repeat split; assumption.
Qed.

Lemma untouched_fresh (h hs : heap) ql :
  untouched_but (length h) (h ++ [ql]) hs ->
  forall l, (l < length h)%nat -> hs !! l = h !! l.
Proof.
  intros Hfr l Hl. rewrite (Hfr l).
  - now apply lookup_app_l.
  - rewrite length_app. simpl. lia.
  - lia.
Qed.

Lemma caller_store_kept N I e d s_0 s_max env_min ms vars h iL eL dL msL vL :
  h !! I = Some iL -> h !! e = Some eL -> h !! d = Some dL ->
  h !! ms = Some msL -> h !! vars = Some vL ->
  forall l, (l < length h)%nat ->
    store_after (auto_optim N I e d s_0 s_max env_min ms vars h) !! l = h !! l.
Proof.
  intros HI He Hd Hms Hv l Hl.
  destruct (le_lt_dec 8 (length vL)) as [Hlen|Hlen].
  2:{ now rewrite (auto_optim_short N I e d s_0 s_max env_min ms vars h vL Hv
                     Hlen). }
  destruct (auto_optim_run N I e d s_0 s_max env_min ms vars h iL eL dL msL
              HI He Hd Hms vL Hv Hlen)
    as [(_ & hs & E & Hfr)|
        (_ & hs & sL & enL & spL & qL' & _ & _ & _ & _ & _ & _ & _ & Hfr & E)];
    rewrite E.
  - simpl. now apply (untouched_fresh h hs (take 8 vL)).
  - transitivity (hs !! l); [|now apply (untouched_fresh h hs (take 8 vL))].
    destruct (deficit_penalty N dL qL'); [|reflexivity].
    destruct (storage_penalty N msL sL); reflexivity.
Qed.

(** X6.  [auto_optim] leaves the caller's lists alone.  Whether the call returns
    or raises, every object the store held before the call, the list [vars]
    among them, holds afterwards what it held before: the simulator writes
    the releases it cuts into the list that [auto_optim] has built from
    [vars], not into [vars]. *)
Theorem auto_optim_frame N I e d s_0 s_max env_min ms vars h iL eL dL msL vL :
  h !! I = Some iL -> h !! e = Some eL -> h !! d = Some dL ->
  h !! ms = Some msL -> h !! vars = Some vL ->
  forall l, (l < length h)%nat ->
    store_after (auto_optim N I e d s_0 s_max env_min ms vars h) !! l = h !! l.
Proof.
  exact (caller_store_kept N I e d s_0 s_max env_min ms vars h iL eL dL msL
           vL).
Qed.

(** ** When the penalties can be computed *)

Lemma deficit_penalty_is_Some N dL qL :
  length qL = 8%nat ->
  is_Some (deficit_penalty N dL qL) <->
  (length dL = 8 \/ length dL = 1)%nat /\
  (Z.to_nat N = 8 \/ Z.to_nat N = 1)%nat.
Proof.
  intros HQ. unfold deficit_penalty. split.
  - intros [p Hp]. apply bind_Some in Hp as (x & Hx & Hp).
    apply bind_Some in Hp as (y & Hy & _).
    pose proof (proj1 (broadcast_is_Some _ _ _) (mk_is_Some _ _ Hx)) as H1.
    pose proof (broadcast_length _ _ _ _ Hx ltac:(lia)) as Lx.
    pose proof (proj1 (broadcast_is_Some _ _ _) (mk_is_Some _ _ Hy)) as H2.
    rewrite length_replicate in H2. lia.
  - intros [H1 H2].
    destruct (proj2 (broadcast_is_Some Qminus dL qL) ltac:(lia)) as [x Hx].
    pose proof (broadcast_length _ _ _ _ Hx ltac:(lia)) as Lx.
    destruct (proj2 (broadcast_is_Some py_max x (replicate (Z.to_nat N) 0))
                ltac:(rewrite length_replicate; lia)) as [y Hy].
    unfold np_subtract, np_maximum. rewrite Hx. simpl. rewrite Hy. simpl. eauto.
Qed.

Lemma storage_penalty_is_Some N msL sL :
  (1 <= N)%Z -> length sL = (Z.to_nat N + 1)%nat ->
  is_Some (storage_penalty N msL sL) <->
  (length msL = Z.to_nat N + 1 \/ length msL = 1)%nat.
Proof.
  intros HN HS. unfold storage_penalty.
  assert (Z.to_nat (N + 1) = (Z.to_nat N + 1)%nat) as -> by lia.
  split.
  - intros [p Hp]. apply bind_Some in Hp as (x & Hx & _).
    pose proof (proj1 (broadcast_is_Some _ _ _) (mk_is_Some _ _ Hx)) as H1.
    lia.
  - intros H1.
    destruct (proj2 (broadcast_is_Some Qminus msL sL) ltac:(lia)) as [x Hx].
    pose proof (broadcast_length _ _ _ _ Hx ltac:(lia)) as Lx.
    destruct (proj2 (broadcast_is_Some py_max x
                       (replicate (Z.to_nat N + 1) 0))
                ltac:(rewrite length_replicate; lia)) as [y Hy].
    unfold np_subtract, np_maximum. rewrite Hx. simpl. rewrite Hy. simpl. eauto.
Qed.

(** X7.  How a call of [auto_optim] ends.  It returns exactly when [vars] has
    eight entries or more, the horizon [N] is not negative and not beyond
    the lengths of [I_fore], [e_fore], [d_fore] and 8, and the lengths can be
    broadcast: [N] is 8 or 1, [d_fore] has 8 entries or 1, [ms] has [N + 1]
    entries or 1.  It raises an [IndexError] exactly when [vars] is shorter
    than eight or the simulation runs off a list, and numpy's [ValueError]
    exactly when the simulation returns but the lengths cannot be
    broadcast. *)
Theorem auto_optim_outcome N I e d s_0 s_max env_min ms vars h iL eL dL msL
    vL :
  h !! I = Some iL -> h !! e = Some eL -> h !! d = Some dL ->
  h !! ms = Some msL -> h !! vars = Some vL ->
  match auto_optim N I e d s_0 s_max env_min ms vars h with
  | Ok2 _ _ =>
      (8 <= length vL)%nat /\ enough N iL eL dL (take 8 vL) /\
      broadcastable N dL msL
  | Raise2 (PyRaise IndexError) _ =>
      (length vL < 8)%nat \/ ~ enough N iL eL dL (take 8 vL)
  | Raise2 (PyRaise NoObject) _ => False
  | Raise2 ValueError _ =>
      (8 <= length vL)%nat /\ enough N iL eL dL (take 8 vL) /\
      ~ broadcastable N dL msL
  end.
Proof.
  intros HI He Hd Hms Hv.
  destruct (le_lt_dec 8 (length vL)) as [Hlen|Hlen].
  2:{ rewrite (auto_optim_short N I e d s_0 s_max env_min ms vars h vL Hv Hlen).
      now left. }
  destruct (auto_optim_run N I e d s_0 s_max env_min ms vars h iL eL dL msL
              HI He Hd Hms vL Hv Hlen)
    as [(Hne & hs & E & _)|
        (Hen & hs & sL & enL & spL & qL' & _ & _ & HlS & HlQ & _ & _ & _ & _ &
         E)];
    rewrite E.
  - now right.
  - pose proof (deficit_penalty_is_Some N dL qL' HlQ) as Hdp.
    destruct Hen as [Hpos Hlong].
    unfold broadcastable.
    destruct (deficit_penalty N dL qL') as [p|].
    + destruct (proj1 Hdp ltac:(eauto)) as [H1 H2].
      assert (HN : (1 <= N)%Z) by lia.
      pose proof (storage_penalty_is_Some N msL sL HN HlS) as Hsp.
      destruct (storage_penalty N msL sL) as [p'|].
      * pose proof (proj1 Hsp ltac:(eauto)).
        split; [assumption|]. split; [split; assumption|]. 
        split; [lia|]. split; assumption.
      * split; [assumption|]. split; [split; assumption|].
        intros (_ & _ & H3). destruct (proj2 Hsp H3) as [? [=]].
    + split; [assumption|]. split; [split; assumption|].
      intros (H1 & H2 & _).
      destruct (proj2 Hdp ltac:(split; [assumption | lia])) as [? [=]].
Qed.

(** ** The penalties, entry by entry *)

Lemma penalty_terms_lookup (a b : list Q) n t v :
  zip_with py_max (zip_with Qminus a b) (replicate n 0) !! t = Some v <->
  exists x y, a !! t = Some x /\ b !! t = Some y /\ (t < n)%nat /\
              v = py_max (x - y) 0.
Proof.
  rewrite lookup_zip_with_Some. split.
  - intros (w & z & -> & Hw & Hz).
    apply lookup_zip_with_Some in Hw as (x & y & -> & Hx & Hy).
    apply lookup_replicate in Hz as [-> Ht]. eauto 10.
  - intros (x & y & Hx & Hy & Ht & ->). exists (x - y), 0.
    split; [reflexivity|]. split.
    + apply lookup_zip_with_Some. eauto.
    + now apply lookup_replicate_2.
Qed.

Lemma deficit_penalty_same N dL qL :
  length dL = length qL -> length qL = Z.to_nat N ->
  deficit_penalty N dL qL =
  Some (astype_int (np_sum (np_square
          (zip_with py_max (zip_with Qminus dL qL)
             (replicate (Z.to_nat N) 0))))).
Proof.
  intros H1 H2. unfold deficit_penalty, np_subtract, np_maximum.
  rewrite (broadcast_same_length Qminus dL qL H1). simpl.
  rewrite broadcast_same_length; [reflexivity|].
  rewrite length_zip_with, length_replicate. lia.
Qed.

Lemma storage_penalty_same N msL sL :
  length msL = length sL -> length sL = Z.to_nat (N + 1) ->
  storage_penalty N msL sL =
  Some (astype_int (np_sum
          (zip_with py_max (zip_with Qminus msL sL)
             (replicate (Z.to_nat (N + 1)) 0)))).
Proof.
  intros H1 H2. unfold storage_penalty, np_subtract, np_maximum.
  rewrite (broadcast_same_length Qminus msL sL H1). simpl.
  rewrite broadcast_same_length; [reflexivity|].
  rewrite length_zip_with, length_replicate. lia.
Qed.

Lemma penalty_terms_nonneg (a b : list Q) n :
  Forall (Qle 0) (zip_with py_max (zip_with Qminus a b) (replicate n 0)).
Proof.
  apply Forall_lookup. intros t v Hv.
  apply penalty_terms_lookup in Hv as (x & y & _ & _ & _ & ->).
  apply py_max_zero_nonneg.
Qed.

Lemma py_max_zero_le x : x <= py_max x 0.
Proof. destruct (py_max_cases x 0) as [[H ->]|[H ->]]; lra. Qed.

Lemma py_max_zero_of_le x : x <= 0 -> py_max x 0 == 0.
Proof. intros Hx. destruct (py_max_cases x 0) as [[H ->]|[H ->]]; lra. Qed.

(** The sum of the shortfalls [max(a[t] - b[t], 0)] cut to an integer is 0
    when no [a[t]] exceeds [b[t]], and only when every shortfall is below
    1. *)
Lemma shortfall_sum_zero (a b : list Q) n :
  length a = n -> length b = n ->
  ((forall t x y, a !! t = Some x -> b !! t = Some y -> x <= y) ->
   astype_int (np_sum (zip_with py_max (zip_with Qminus a b)
                         (replicate n 0))) = 0%Z) /\
  (astype_int (np_sum (zip_with py_max (zip_with Qminus a b)
                         (replicate n 0))) = 0%Z ->
   forall t x y, a !! t = Some x -> b !! t = Some y -> x - y < 1).
Proof.
  intros La Lb.
  pose proof (penalty_terms_nonneg a b n) as Hnn.
  pose proof (np_sum_nonneg _ Hnn) as Hsum.
  split.
  - intros Hle. apply astype_int_zero_iff; [assumption|].
    rewrite np_sum_zero; [lra|].
    apply Forall_lookup. intros t v Hv.
    apply penalty_terms_lookup in Hv as (x & y & Hx & Hy & _ & ->).
    apply py_max_zero_of_le. specialize (Hle t x y Hx Hy). lra.
  - intros Hz t x y Hx Hy.
    apply astype_int_zero_iff in Hz; [|assumption].
    assert (Ht : (t < n)%nat) by (rewrite <- La; eapply lookup_lt_Some, Hx).
    pose proof (np_sum_elem_le _ t (py_max (x - y) 0) Hnn
                  ltac:(apply penalty_terms_lookup; eauto 10)) as Hel.
    pose proof (py_max_zero_le (x - y)). lra.
Qed.

(** The same for the sum of the squared shortfalls. *)
Lemma squared_shortfall_sum_zero (a b : list Q) n :
  length a = n -> length b = n ->
  ((forall t x y, a !! t = Some x -> b !! t = Some y -> x <= y) ->
   astype_int (np_sum (np_square (zip_with py_max (zip_with Qminus a b)
                                    (replicate n 0)))) = 0%Z) /\
  (astype_int (np_sum (np_square (zip_with py_max (zip_with Qminus a b)
                                    (replicate n 0)))) = 0%Z ->
   forall t x y, a !! t = Some x -> b !! t = Some y -> x - y < 1).
Proof.
  intros La Lb.
  pose proof (np_square_nonneg (zip_with py_max (zip_with Qminus a b)
                                  (replicate n 0))) as Hnn.
  pose proof (np_sum_nonneg _ Hnn) as Hsum.
  split.
  - intros Hle. apply astype_int_zero_iff; [assumption|].
    rewrite np_sum_zero; [lra|].
    apply Forall_lookup. intros t v Hv. unfold np_square in Hv.
    apply list_lookup_fmap_Some in Hv as (w & -> & Hw).
    apply penalty_terms_lookup in Hw as (x & y & Hx & Hy & _ & ->).
    pose proof (py_max_zero_of_le (x - y)) as H0.
    specialize (Hle t x y Hx Hy). rewrite H0 by lra. lra.
  - intros Hz t x y Hx Hy.
    apply astype_int_zero_iff in Hz; [|assumption].
    assert (Ht : (t < n)%nat) by (rewrite <- La; eapply lookup_lt_Some, Hx).
    assert (Hsq : np_square (zip_with py_max (zip_with Qminus a b)
                               (replicate n 0)) !! t =
                  Some (py_max (x - y) 0 * py_max (x - y) 0)).
    { unfold np_square. apply list_lookup_fmap_Some.
      exists (py_max (x - y) 0). split; [reflexivity|].
      apply penalty_terms_lookup. eauto 10. }
    pose proof (np_sum_elem_le _ t _ Hnn Hsq) as Hel.
    pose proof (py_max_zero_le (x - y)) as H1.
    pose proof (py_max_zero_nonneg (x - y)) as H2.
    nra.
Qed.

(** A release that is nowhere more than another has a deficit penalty that
    is not less, as long as the greater sum is in the range of the cast. *)
Lemma deficit_penalty_mono N dL qL qL' p p' :
  Forall2 (fun q q' => q' <= q) qL qL' ->
  deficit_penalty N dL qL = Some p -> deficit_penalty N dL qL' = Some p' ->
  deficit_in_range N dL qL' = true ->
  (p <= p')%Z.
Proof.
  intros HQ Hp Hp' Hr. unfold deficit_penalty in Hp, Hp'.
  unfold deficit_in_range in Hr.
  apply bind_Some in Hp as (x & Hx & Hp).
  apply bind_Some in Hp as (y & Hy & [= <-]).
  apply bind_Some in Hp' as (x' & Hx' & Hp').
  apply bind_Some in Hp' as (y' & Hy' & [= <-]).
  rewrite Hx', Hy' in Hr. apply andb_true_iff in Hr as [_ Hr].
  assert (HX : Forall2 Qle x x').
  { apply (broadcast_Forall2 Qminus eq (fun q q' => q' <= q) Qle
             dL dL qL qL' x x'); try assumption.
    - apply Forall2_same_length_lookup_2; [reflexivity|]. congruence.
    - intros a a' q q' <- Hq. lra. }
  assert (HY : Forall2 (fun v v' => 0 <= v /\ v <= v') y y').
  { apply (broadcast_Forall2 py_max Qle (fun z z' => z = 0 /\ z' = 0)
             (fun v v' => 0 <= v /\ v <= v')
             x x' (replicate (Z.to_nat N) 0) (replicate (Z.to_nat N) 0) y y');
      try assumption.
    - apply Forall2_same_length_lookup_2; [reflexivity|].
      intros t z z' Hz Hz'.
      apply lookup_replicate in Hz as [-> _].
      apply lookup_replicate in Hz' as [-> _]. auto.
    - intros a a' z z' Ha [-> ->].
      destruct (py_max_cases a 0) as [[? ->]|[? ->]];
        destruct (py_max_cases a' 0) as [[? ->]|[? ->]]; split; lra. }
  apply astype_int_mono; [| |assumption].
  - apply np_sum_nonneg, np_square_nonneg.
  - apply np_sum_mono. unfold np_square.
    apply Forall2_map_rel with (fun v v' => 0 <= v /\ v <= v'); [assumption|].
    intros v v' [H0 Hv]. nra.
Qed.

(** The lists a call returns are determined by the call. *)
Lemma returns_unique N I e d S0 Smax env_min Qreg h
    sL enL spL qL' sL2 enL2 spL2 qL2 :
  returns N I e d S0 Smax env_min Qreg h sL enL spL qL' ->
  returns N I e d S0 Smax env_min Qreg h sL2 enL2 spL2 qL2 ->
  sL2 = sL /\ enL2 = enL /\ spL2 = spL /\ qL2 = qL'.
Proof.
  intros (h1 & S & env & sp & E & HS & Hen & Hsp & HQ)
         (h2 & S2 & env2 & sp2 & E2 & HS2 & Hen2 & Hsp2 & HQ2).
  rewrite E in E2. injection E2 as <- <- <- <-.
  repeat split; congruence.
Qed.

(** X8.  The two objectives are not negative, as long as no value on the
    way to them leaves the range of a 64-bit integer.  With [S] and [Qreg]
    the lists the simulation of [vars[0..7]] returns: if [auto_optim]
    returns [[sdpen, lspen]], the differences [d_fore - Qreg] and [ms - S]
    are in the range and so are the sum of the squared deficits and the sum
    of the shortfalls, then [0 <= sdpen] and [0 <= lspen].  (Beyond the
    range the cast gives a negative number.) *)
Theorem objectives_nonneg N I e d s_0 s_max env_min ms vars h iL eL dL msL vL
    sL enL spL qL' sdpen lspen hs :
  h !! I = Some iL -> h !! e = Some eL -> h !! d = Some dL ->
  h !! ms = Some msL -> h !! vars = Some vL ->
  auto_optim N I e d s_0 s_max env_min ms vars h = Ok2 (sdpen, lspen) hs ->
  returns N I e d s_0 s_max env_min (length h) (h ++ [take 8 vL])
    sL enL spL qL' ->
  deficit_in_range N dL qL' = true -> storage_in_range N msL sL = true ->
  (0 <= sdpen)%Z /\ (0 <= lspen)%Z.
Proof.
  intros HI He Hd Hms Hv E Hret Hrd Hrs.
  destruct (auto_optim_returned N I e d s_0 s_max env_min ms vars h iL eL dL
              msL vL sdpen lspen hs HI He Hd Hms Hv E)
    as (_ & _ & sL0 & enL0 & spL0 & qL0 & Hret0 & _ & _ & _ & _ & _ & _ &
        Hdp & Hsp).
  destruct (returns_unique _ _ _ _ _ _ _ _ _ _ _ _ _ _ _ _ _ Hret Hret0)
    as (-> & _ & _ & ->).
  split.
  - exact (deficit_penalty_nonneg N dL qL' sdpen Hdp Hrd).
  - exact (storage_penalty_nonneg N msL sL lspen Hsp Hrs).
Qed.

(** X9.  What a zero objective means, for the horizon of eight weeks and a
    threshold [ms] of nine entries, as long as no value on the way to the
    objectives leaves the range of a 64-bit integer.  With [S] and [Qreg]
    the lists the simulation of [vars[0..7]] returns:
    - if the returned release meets the demand in every week, [sdpen] is 0;
    - if [sdpen] is 0, the deficit [d_fore[t] - Qreg[t]] is below 1 in every
      week (the fraction of the sum is cut off, so it need not be 0);
    - if the storage is never below the threshold, [lspen] is 0;
    - if [lspen] is 0, the shortfall [ms[t] - S[t]] is below 1 at every
      [t = 0 .. 8]. *)
Theorem zero_penalties I e d s_0 s_max env_min ms vars h iL eL dL msL vL
    sL enL spL qL' sdpen lspen hs :
  h !! I = Some iL -> h !! e = Some eL -> h !! d = Some dL ->
  h !! ms = Some msL -> h !! vars = Some vL -> length msL = 9%nat ->
  auto_optim 8 I e d s_0 s_max env_min ms vars h = Ok2 (sdpen, lspen) hs ->
  returns 8 I e d s_0 s_max env_min (length h) (h ++ [take 8 vL])
    sL enL spL qL' ->
  deficit_in_range 8 dL qL' = true -> storage_in_range 8 msL sL = true ->
  ((forall t dm q, dL !! t = Some dm -> qL' !! t = Some q -> dm <= q) ->
   sdpen = 0%Z) /\
  (sdpen = 0%Z ->
   forall t dm q, dL !! t = Some dm -> qL' !! t = Some q -> dm - q < 1) /\
  ((forall t m s, msL !! t = Some m -> sL !! t = Some s -> m <= s) ->
   lspen = 0%Z) /\
  (lspen = 0%Z ->
   forall t m s, msL !! t = Some m -> sL !! t = Some s -> m - s < 1).
Proof.
  intros HI He Hd Hms Hv Lms E Hret _ _.
  destruct (auto_optim_returned 8 I e d s_0 s_max env_min ms vars h iL eL dL
              msL vL sdpen lspen hs HI He Hd Hms Hv E)
    as (_ & Hen & sL0 & enL0 & spL0 & qL0 & Hret0 & HlS & HlQ & _ & _ & _ &
        _ & Hdp & Hsp).
  destruct (returns_unique _ _ _ _ _ _ _ _ _ _ _ _ _ _ _ _ _ Hret Hret0)
    as (-> & _ & _ & ->).
  destruct Hen as (_ & _ & _ & Hld & _).
  destruct (proj1 (deficit_penalty_is_Some 8 dL qL' HlQ) ltac:(eauto))
    as [Hld' _].
  assert (Ld : length dL = 8%nat) by (simpl in Hld; lia).
  rewrite (deficit_penalty_same 8 dL qL') in Hdp by (simpl; lia).
  rewrite (storage_penalty_same 8 msL sL) in Hsp by (simpl in *; lia).
  injection Hdp as <-. injection Hsp as <-.
  destruct (squared_shortfall_sum_zero dL qL' 8 Ld HlQ) as [D1 D2].
  destruct (shortfall_sum_zero msL sL 9 Lms HlS) as [S1 S2].
  repeat split; assumption.
Qed.

(** X10.  The deficit is charged on the release the simulator returns, which
    is never more than the release asked for.  With [Qreg] the release the
    simulation of [vars[0..7]] returns: if [auto_optim] returns
    [[sdpen, lspen]] and no value on the way to the deficit penalty leaves
    the range of a 64-bit integer, for the returned release and for the
    schedule [vars[0..7]] itself, then the deficit penalty of that schedule
    is defined and [sdpen] is at least as much. *)
Theorem deficit_at_least_requested N I e d s_0 s_max env_min ms vars h
    iL eL dL msL vL sL enL spL qL' sdpen lspen hs :
  h !! I = Some iL -> h !! e = Some eL -> h !! d = Some dL ->
  h !! ms = Some msL -> h !! vars = Some vL ->
  auto_optim N I e d s_0 s_max env_min ms vars h = Ok2 (sdpen, lspen) hs ->
  returns N I e d s_0 s_max env_min (length h) (h ++ [take 8 vL])
    sL enL spL qL' ->
  deficit_in_range N dL qL' = true ->
  deficit_in_range N dL (take 8 vL) = true ->
  exists p, deficit_penalty N dL (take 8 vL) = Some p /\ (p <= sdpen)%Z.
Proof.
  intros HI He Hd Hms Hv E Hret Hrd _.
  destruct (auto_optim_returned N I e d s_0 s_max env_min ms vars h iL eL dL
              msL vL sdpen lspen hs HI He Hd Hms Hv E)
    as (Hlen & _ & sL0 & enL0 & spL0 & qL0 & Hret0 & _ & HlQ & _ & Htail &
        Hsteps & _ & Hdp & _).
  destruct (returns_unique _ _ _ _ _ _ _ _ _ _ _ _ _ _ _ _ _ Hret Hret0)
    as (-> & -> & -> & ->).
  assert (Hql : length (take 8 vL) = 8%nat) by (rewrite length_take; lia).
  destruct (proj2 (deficit_penalty_is_Some N dL (take 8 vL) Hql)
              (proj1 (deficit_penalty_is_Some N dL qL' HlQ) ltac:(eauto)))
    as [p Hp].
  exists p. split; [assumption|].
  apply (deficit_penalty_mono N dL (take 8 vL) qL' p sdpen); try assumption.
  apply Forall2_same_length_lookup_2; [lia|].
  intros t q q' Hq Hq'.
  destruct (le_lt_dec (Z.to_nat N) t) as [Ht|Ht].
  - rewrite (Htail t Ht), Hq in Hq'. injection Hq' as <-. lra.
  - destruct (Hsteps t Ht)
      as (s & i & ev & dm & q0 & _ & _ & _ & _ & Hq0 & _ & _ & _ & Hq0').
    rewrite Hq in Hq0. injection Hq0 as <-.
    rewrite Hq' in Hq0'. injection Hq0' as ->.
    rewrite ?step_Qreg. apply release_rule_le.
Qed.

(** ** Calling [auto_optim] again *)

Section SameInputs.

Variables (N : Z) (Smax env_min S0 : Q) (iL eL dL qL : list Q).
Variables (sL enL spL qL' sL2 enL2 spL2 qL2 : list Q).
Hypothesis H0 : sL !! 0%nat = Some S0.
Hypothesis H02 : sL2 !! 0%nat = Some S0.
Hypothesis Hsteps :
  forall t, (t < Z.to_nat N)%nat ->
    step_at Smax env_min iL eL dL qL sL enL spL qL' t.
Hypothesis Hsteps2 :
  forall t, (t < Z.to_nat N)%nat ->
    step_at Smax env_min iL eL dL qL sL2 enL2 spL2 qL2 t.

(** Two runs on the same inputs that agree on [S[t]] agree on what step [t]
    writes. *)
Lemma same_inputs_agree t :
  (t < Z.to_nat N)%nat ->
  sL2 !! t = sL !! t ->
  sL2 !! (t + 1)%nat = sL !! (t + 1)%nat /\ qL2 !! t = qL' !! t.
Proof.
  intros Ht Hs.
  destruct (Hsteps t Ht)
    as (s & i & ev & dm & q & Hs1 & Hi & Hev & Hdm & Hq & Hn & _ & _ & Hq').
  destruct (Hsteps2 t Ht)
    as (s2 & i2 & ev2 & dm2 & q2 & Hs2 & Hi2 & Hev2 & Hdm2 & Hq2 & Hn2 &
        _ & _ & Hq2').
  assert (s2 = s) as -> by congruence.
  assert (i2 = i) as -> by congruence.
  assert (ev2 = ev) as -> by congruence.
  assert (dm2 = dm) as -> by congruence.
  assert (q2 = q) as -> by congruence.
  split; congruence.
Qed.

Lemma same_inputs_storage t :
  (t <= Z.to_nat N)%nat -> sL2 !! t = sL !! t.
Proof.
  induction t as [|t IH]; intros Ht.
  - congruence.
  - replace (Datatypes.S t) with (t + 1)%nat by lia.
    apply same_inputs_agree; [lia|]. apply IH. lia.
Qed.

End SameInputs.

(** The result of [auto_optim] is a function of the five lists it reads. *)
Lemma auto_optim_same_lists N I e d s_0 s_max env_min ms vars h h2
    iL eL dL msL vL :
  h !! I = Some iL -> h !! e = Some eL -> h !! d = Some dL ->
  h !! ms = Some msL -> h !! vars = Some vL ->
  h2 !! I = Some iL -> h2 !! e = Some eL -> h2 !! d = Some dL ->
  h2 !! ms = Some msL -> h2 !! vars = Some vL ->
  result_of (auto_optim N I e d s_0 s_max env_min ms vars h2) =
  result_of (auto_optim N I e d s_0 s_max env_min ms vars h).
Proof.
  intros HI He Hd Hms Hv HI2 He2 Hd2 Hms2 Hv2.
  destruct (le_lt_dec 8 (length vL)) as [Hlen|Hlen].
  2:{ rewrite (auto_optim_short N I e d s_0 s_max env_min ms vars h vL Hv Hlen).
      rewrite (auto_optim_short N I e d s_0 s_max env_min ms vars h2 vL Hv2
                 Hlen).
      reflexivity. }
  destruct (auto_optim_run N I e d s_0 s_max env_min ms vars h iL eL dL msL
              HI He Hd Hms vL Hv Hlen)
    as [(Hne & hs & E & _)|
        (Hen & hs & sL & enL & spL & qL' & _ & _ & HlS & HlQ & HS0 & Htail &
         Hsteps & _ & E)];
    destruct (auto_optim_run N I e d s_0 s_max env_min ms vars h2 iL eL dL msL
                HI2 He2 Hd2 Hms2 vL Hv2 Hlen)
      as [(Hne2 & hs2 & E2 & _)|
          (Hen2 & hs2 & sL2 & enL2 & spL2 & qL2 & _ & _ & HlS2 & HlQ2 & HS02 &
           Htail2 & Hsteps2 & _ & E2)];
    try contradiction; rewrite E, E2; [reflexivity|].
  pose proof (same_inputs_storage N s_max env_min s_0 iL eL dL (take 8 vL)
                sL enL spL qL' sL2 enL2 spL2 qL2 HS0 HS02 Hsteps Hsteps2)
    as Hstor.
  assert (Hs : sL2 = sL).
  { apply (list_eq_by_lookup _ _ (Z.to_nat N + 1)%nat); try assumption.
    intros t Ht. apply Hstor. lia. }
  assert (Hq : qL2 = qL').
  { apply (list_eq_by_lookup _ _ 8%nat); try assumption.
    intros t Ht. destruct (Nat.lt_ge_cases t (Z.to_nat N)) as [Hlt|Hge].
    - destruct (same_inputs_agree N s_max env_min iL eL dL (take 8 vL)
                  sL enL spL qL' sL2 enL2 spL2 qL2 Hsteps Hsteps2 t Hlt)
        as [_ Hq]; [apply Hstor; lia | exact Hq].
    - rewrite Htail, Htail2 by assumption. reflexivity. }
  rewrite Hs, Hq.
  destruct (deficit_penalty N dL qL'); [|reflexivity].
  destruct (storage_penalty N msL sL); reflexivity.
Qed.

(** X11.  Calls of [auto_optim] do not depend on one another.  The pair a call
    returns, or the exception it raises, is the same on every store that
    holds the same five lists [I_fore], [e_fore], [d_fore], [ms] and [vars];
    in particular a second call on the store the first call has left gives
    what the first call gave. *)
Theorem auto_optim_repeatable N I e d s_0 s_max env_min ms vars h
    iL eL dL msL vL :
  h !! I = Some iL -> h !! e = Some eL -> h !! d = Some dL ->
  h !! ms = Some msL -> h !! vars = Some vL ->
  (forall h2,
     h2 !! I = Some iL -> h2 !! e = Some eL -> h2 !! d = Some dL ->
     h2 !! ms = Some msL -> h2 !! vars = Some vL ->
     result_of (auto_optim N I e d s_0 s_max env_min ms vars h2) =
     result_of (auto_optim N I e d s_0 s_max env_min ms vars h)) /\
  result_of (auto_optim N I e d s_0 s_max env_min ms vars
               (store_after (auto_optim N I e d s_0 s_max env_min ms vars h))) =
  result_of (auto_optim N I e d s_0 s_max env_min ms vars h).
Proof.
  intros HI He Hd Hms Hv.
  assert (Hgen : forall h2,
     h2 !! I = Some iL -> h2 !! e = Some eL -> h2 !! d = Some dL ->
     h2 !! ms = Some msL -> h2 !! vars = Some vL ->
     result_of (auto_optim N I e d s_0 s_max env_min ms vars h2) =
     result_of (auto_optim N I e d s_0 s_max env_min ms vars h)).
  { intros h2 HI2 He2 Hd2 Hms2 Hv2.
    now apply (auto_optim_same_lists N I e d s_0 s_max env_min ms vars h h2
                 iL eL dL msL vL). }
  split; [exact Hgen|].
  pose proof (caller_store_kept N I e d s_0 s_max env_min ms vars h
                iL eL dL msL vL HI He Hd Hms Hv) as Hk.
  apply Hgen; rewrite Hk;
    first [assumption | eapply lookup_lt_Some; eassumption].
Qed.

(** ** The run on [store_optim] *)

(** The schedule that asks for the whole demand leaves a deficit of 376
    (the last week can release 33/5 of the 26 asked for) and a storage
    shortfall of 57. *)
Lemma store_optim_run :
  auto_optim 8 0 1 2 80 150 2 4 5 store_optim =
  Ok2 (376, 57)%Z
    (store_after (auto_optim 8 0 1 2 80 150 2 4 5 store_optim)).
Proof. vm_compute. reflexivity. Defined.

Lemma auto_optim_frame_witness :
  store_optim !! 5%nat = Some [13; 13; 17; 18; 20; 22; 25; 26] /\
  forall l, (l < length store_optim)%nat ->
    store_after (auto_optim 8 0 1 2 80 150 2 4 5 store_optim) !! l =
    store_optim !! l.
Proof.
  split; [reflexivity|].
  exact (auto_optim_frame 8 0 1 2 80 150 2 4 5 store_optim _ _ _ _ _
           eq_refl eq_refl eq_refl eq_refl eq_refl).
Defined.

Lemma auto_optim_outcome_witness :
  exists r hs,
    auto_optim 8 0 1 2 80 150 2 4 5 store_optim = Ok2 r hs /\
    (8 <= length [13; 13; 17; 18; 20; 22; 25; 26])%nat /\
    enough 8 [15; 17; 19; 11; 9; 4; 3; 8]
      [13 # 10; 13 # 10; 17 # 10; 18 # 10; 2; 22 # 10; 25 # 10; 26 # 10]
      [13; 13; 17; 18; 20; 22; 25; 26]
      (take 8 [13; 13; 17; 18; 20; 22; 25; 26]) /\
    broadcastable 8 [13; 13; 17; 18; 20; 22; 25; 26] (replicate 9 30).
Proof.
  pose proof (auto_optim_outcome 8 0 1 2 80 150 2 4 5 store_optim _ _ _ _ _
                eq_refl eq_refl eq_refl eq_refl eq_refl) as H.
  rewrite store_optim_run in H. eexists _, _. split; [exact store_optim_run|].
  exact H.
Defined.

(** The plan of whole numbers run from [s_0 = 80]: the lists of the
    simulation and the two objectives. *)
Lemma store_plan_run :
  auto_optim 8 0 1 2 80 150 2 3 4 store_plan =
  Ok2 (400, 57)%Z
    (store_after (auto_optim 8 0 1 2 80 150 2 3 4 store_plan)).
Proof. vm_compute. reflexivity. Defined.

Lemma store_plan_returns :
  returns 8 0 1 2 80 150 2 (length store_plan)
    (store_plan ++ [take 8 [13; 13; 17; 18; 20; 22; 25; 26]])
    [80; 79; 80; 78; 67; 52; 30; 3; 0]
    [2; 2; 2; 2; 2; 2; 2; 2]
    [0; 0; 0; 0; 0; 0; 0; 0]
    [13; 13; 17; 18; 20; 22; 25; 6].
Proof.
  exists (store_after (auto_optim 8 0 1 2 80 150 2 3 4 store_plan)),
    6%nat, 8%nat, 7%nat.
  repeat split; vm_compute; reflexivity.
Defined.

(** The same plan from a full reservoir, [s_0 = 150]: every demand is met
    and the storage stays above the threshold. *)
Lemma store_plan_full_run :
  auto_optim 8 0 1 2 150 150 2 3 4 store_plan =
  Ok2 (0, 0)%Z
    (store_after (auto_optim 8 0 1 2 150 150 2 3 4 store_plan)).
Proof. vm_compute. reflexivity. Defined.

Lemma store_plan_full_returns :
  returns 8 0 1 2 150 150 2 (length store_plan)
    (store_plan ++ [take 8 [13; 13; 17; 18; 20; 22; 25; 26]])
    [150; 149; 150; 148; 137; 122; 100; 73; 50]
    [2; 2; 2; 2; 2; 2; 2; 2]
    [0; 0; 0; 0; 0; 0; 0; 0]
    [13; 13; 17; 18; 20; 22; 25; 26].
Proof.
  exists (store_after (auto_optim 8 0 1 2 150 150 2 3 4 store_plan)),
    6%nat, 8%nat, 7%nat.
  repeat split; vm_compute; reflexivity.
Defined.

Lemma objectives_nonneg_witness :
  (auto_optim 8 0 1 2 80 150 2 3 4 store_plan =
     Ok2 (400, 57)%Z
       (store_after (auto_optim 8 0 1 2 80 150 2 3 4 store_plan)) /\
   returns 8 0 1 2 80 150 2 (length store_plan)
     (store_plan ++ [take 8 [13; 13; 17; 18; 20; 22; 25; 26]])
     [80; 79; 80; 78; 67; 52; 30; 3; 0]
     [2; 2; 2; 2; 2; 2; 2; 2]
     [0; 0; 0; 0; 0; 0; 0; 0]
     [13; 13; 17; 18; 20; 22; 25; 6] /\
   deficit_in_range 8 [13; 13; 17; 18; 20; 22; 25; 26]
     [13; 13; 17; 18; 20; 22; 25; 6] = true /\
   storage_in_range 8 (replicate 9 30)
     [80; 79; 80; 78; 67; 52; 30; 3; 0] = true) /\
  (0 <= 400)%Z /\ (0 <= 57)%Z.
Proof.
  split;
    [split; [exact store_plan_run|]; split; [exact store_plan_returns|];
     split; reflexivity|].
  exact (objectives_nonneg 8 0 1 2 80 150 2 3 4 store_plan _ _ _ _ _
           _ _ _ _ _ _ _
           eq_refl eq_refl eq_refl eq_refl eq_refl store_plan_run
           store_plan_returns eq_refl eq_refl).
Defined.

Lemma zero_penalties_witness :
  (length (replicate 9 (30 : Q)) = 9%nat /\
   auto_optim 8 0 1 2 150 150 2 3 4 store_plan =
     Ok2 (0, 0)%Z
       (store_after (auto_optim 8 0 1 2 150 150 2 3 4 store_plan)) /\
   returns 8 0 1 2 150 150 2 (length store_plan)
     (store_plan ++ [take 8 [13; 13; 17; 18; 20; 22; 25; 26]])
     [150; 149; 150; 148; 137; 122; 100; 73; 50]
     [2; 2; 2; 2; 2; 2; 2; 2]
     [0; 0; 0; 0; 0; 0; 0; 0]
     [13; 13; 17; 18; 20; 22; 25; 26] /\
   deficit_in_range 8 [13; 13; 17; 18; 20; 22; 25; 26]
     [13; 13; 17; 18; 20; 22; 25; 26] = true /\
   storage_in_range 8 (replicate 9 30)
     [150; 149; 150; 148; 137; 122; 100; 73; 50] = true) /\
  ((forall t dm q, [13; 13; 17; 18; 20; 22; 25; 26] !! t = Some dm ->
      [13; 13; 17; 18; 20; 22; 25; 26] !! t = Some q -> dm <= q) ->
   0%Z = 0%Z) /\
  (0%Z = 0%Z ->
   forall t dm q, [13; 13; 17; 18; 20; 22; 25; 26] !! t = Some dm ->
     [13; 13; 17; 18; 20; 22; 25; 26] !! t = Some q -> dm - q < 1) /\
  ((forall t m s, replicate 9 30 !! t = Some m ->
      [150; 149; 150; 148; 137; 122; 100; 73; 50] !! t = Some s -> m <= s) ->
   0%Z = 0%Z) /\
  (0%Z = 0%Z ->
   forall t m s, replicate 9 30 !! t = Some m ->
     [150; 149; 150; 148; 137; 122; 100; 73; 50] !! t = Some s -> m - s < 1).
Proof.
  split;
    [split; [reflexivity|]; split; [exact store_plan_full_run|];
     split; [exact store_plan_full_returns|]; split; reflexivity|].
  exact (zero_penalties 0 1 2 150 150 2 3 4 store_plan _ _ _ _ _
           _ _ _ _ _ _ _
           eq_refl eq_refl eq_refl eq_refl eq_refl eq_refl
           store_plan_full_run store_plan_full_returns eq_refl eq_refl).
Defined.

Lemma deficit_at_least_requested_witness :
  (auto_optim 8 0 1 2 80 150 2 3 4 store_plan =
     Ok2 (400, 57)%Z
       (store_after (auto_optim 8 0 1 2 80 150 2 3 4 store_plan)) /\
   returns 8 0 1 2 80 150 2 (length store_plan)
     (store_plan ++ [take 8 [13; 13; 17; 18; 20; 22; 25; 26]])
     [80; 79; 80; 78; 67; 52; 30; 3; 0]
     [2; 2; 2; 2; 2; 2; 2; 2]
     [0; 0; 0; 0; 0; 0; 0; 0]
     [13; 13; 17; 18; 20; 22; 25; 6] /\
   deficit_in_range 8 [13; 13; 17; 18; 20; 22; 25; 26]
     [13; 13; 17; 18; 20; 22; 25; 6] = true /\
   deficit_in_range 8 [13; 13; 17; 18; 20; 22; 25; 26]
     (take 8 [13; 13; 17; 18; 20; 22; 25; 26]) = true) /\
  exists p,
    deficit_penalty 8 [13; 13; 17; 18; 20; 22; 25; 26]
      (take 8 [13; 13; 17; 18; 20; 22; 25; 26]) = Some p /\
    (p <= 400)%Z.
Proof.
  split;
    [split; [exact store_plan_run|]; split; [exact store_plan_returns|];
     split; reflexivity|].
  exact (deficit_at_least_requested 8 0 1 2 80 150 2 3 4 store_plan
           _ _ _ _ _ _ _ _ _ _ _ _
           eq_refl eq_refl eq_refl eq_refl eq_refl store_plan_run
           store_plan_returns eq_refl eq_refl).
Defined.

Lemma auto_optim_repeatable_witness :
  store_optim !! 5%nat = Some [13; 13; 17; 18; 20; 22; 25; 26] /\
  (forall h2,
     h2 !! 0%nat = Some [15; 17; 19; 11; 9; 4; 3; 8] ->
     h2 !! 1%nat =
       Some [13 # 10; 13 # 10; 17 # 10; 18 # 10; 2; 22 # 10; 25 # 10;
             26 # 10] ->
     h2 !! 2%nat = Some [13; 13; 17; 18; 20; 22; 25; 26] ->
     h2 !! 4%nat = Some (replicate 9 30) ->
     h2 !! 5%nat = Some [13; 13; 17; 18; 20; 22; 25; 26] ->
     result_of (auto_optim 8 0 1 2 80 150 2 4 5 h2) =
     result_of (auto_optim 8 0 1 2 80 150 2 4 5 store_optim)) /\
  result_of (auto_optim 8 0 1 2 80 150 2 4 5
               (store_after (auto_optim 8 0 1 2 80 150 2 4 5 store_optim))) =
  result_of (auto_optim 8 0 1 2 80 150 2 4 5 store_optim).
Proof.
  split; [reflexivity|].
  exact (auto_optim_repeatable 8 0 1 2 80 150 2 4 5 store_optim _ _ _ _ _
           eq_refl eq_refl eq_refl eq_refl eq_refl).
Defined.
